(** * nsebot: the polling-and-signal pipeline of [trr.py]

    A shallow embedding of the option-chain pipeline: normalisation,
    strike windowing, expiry selection, display projection, signal
    detection and the poll pass that threads the process-wide state and
    the two durable files.

    Conventions of the embedding.
    - A pandas table with a fixed schema is a list of records, one per row,
      in table order; a column is a record field.
    - Python floats and numpy numbers are exact rationals ([Q]); NaN is the
      [None] of an [option].
    - A [pd.Timestamp] is a calendar date, ordered lexicographically.
    - A durable file holds a table, row by row. [to_csv] opens the file
      for writing, which empties it, and then writes the rows: a write that
      raises leaves the file as it was when the file could not be opened,
      and leaves the rows written so far when it could.
    - What pandas, [requests] and the clock return is an input of the
      pass. *)

From Stdlib Require Import List Bool ZArith QArith Qround String Ascii Lia DecimalString.
From Stdlib Require Import Sorted Permutation.
Import ListNotations.

Local Open Scope string_scope.
Local Open Scope list_scope.
Local Open Scope Q_scope.

(** ** Configuration (trr.py, lines 10-18) *)

Definition OI_THRESHOLD : Q := 500000.
Definition STRIKE_OFFSET : Q := 200.
Definition STRIKE_RANGE : Q := 250.

(** ** Exceptions and results *)

Inductive exn : Type :=
| Exception (msg : string)
| IndexError
| ValueError
| OSError.

Inductive result (A : Type) : Type :=
| Ok (a : A)
| Raise (e : exn).
Arguments Ok {A} a.
Arguments Raise {A} e.

Definition rbind {A B : Type} (m : result A) (k : A -> result B) : result B :=
  match m with
  | Ok a => k a
  | Raise e => Raise e
  end.

Declare Scope result_scope.
Delimit Scope result_scope with result.
Notation "x <- m ;; k" := (rbind m (fun x => k))
  (at level 61, m at next level, right associativity) : result_scope.

(** ** Timestamps *)

Record Timestamp : Type := mkTimestamp {
  year : Z;
  month : Z;
  day : Z
}.

Definition ts_compare (a b : Timestamp) : comparison :=
  match (year a ?= year b)%Z with
  | Eq => match (month a ?= month b)%Z with
          | Eq => (day a ?= day b)%Z
          | c => c
          end
  | c => c
  end.

Definition ts_eqb (a b : Timestamp) : bool :=
  match ts_compare a b with Eq => true | _ => false end.

Definition ts_leb (a b : Timestamp) : bool :=
  match ts_compare a b with Gt => false | _ => true end.

Definition ts_ltb (a b : Timestamp) : bool :=
  match ts_compare a b with Lt => true | _ => false end.

Definition ts_le (a b : Timestamp) : Prop := ts_leb a b = true.
Definition ts_lt (a b : Timestamp) : Prop := ts_ltb a b = true.

(** ** Tables *)

(** A value of the fetched table: loosely typed, a string or a number, or
    missing. *)
Inductive Cell : Type :=
| CStr (s : string)
| CNum (q : Q)
| CNull.

(** One row of the table [nse_live_option_chain] returns: the ten columns
    the pipeline reads, and whatever other columns the provider sends. *)
Record RawRow : Type := mkRawRow {
  raw_Expiry_Date : Cell;
  raw_CALLS_OI : Cell;
  raw_CALLS_Chng_in_OI : Cell;
  raw_CALLS_LTP : Cell;
  raw_CALLS_Net_Chng : Cell;
  raw_PUTS_OI : Cell;
  raw_PUTS_Chng_in_OI : Cell;
  raw_PUTS_LTP : Cell;
  raw_PUTS_Net_Chng : Cell;
  raw_Strike_Price : Cell;
  raw_others : list (string * Cell)
}.

(** One row of the normalised table. *)
Record ChainRow : Type := mkChainRow {
  Expiry_Date : Timestamp;
  CALLS_OI : Q;
  CALLS_Chng_in_OI : Q;
  CALLS_LTP : Q;
  CALLS_Net_Chng : Q;
  PUTS_OI : Q;
  PUTS_Chng_in_OI : Q;
  PUTS_LTP : Q;
  PUTS_Net_Chng : Q;
  Strike_Price : Q;
  others : list (string * Cell)
}.

(** ** process_option_chain (trr.py, lines 50-59) *)

Section Normalizer.

(** [pd.to_numeric(_, errors="coerce")] and
    [pd.to_datetime(_, errors="coerce")] on one value: [None] is the NaN,
    or NaT, pandas puts in place of a value it cannot convert. *)
Variable to_numeric : Cell -> option Q.
Variable to_datetime : Cell -> option Timestamp.

(** [.fillna(0)] *)
Definition fillna0 (v : option Q) : Q :=
  match v with
  | Some q => q
  | None => 0
  end.

(** The row after the loop over the nine numeric columns (lines 52-56),
    with its converted expiry [d]. *)
Definition numeric_row (r : RawRow) (d : Timestamp) : ChainRow :=
  {| Expiry_Date := d;
     CALLS_OI := fillna0 (to_numeric (raw_CALLS_OI r));
     CALLS_Chng_in_OI := fillna0 (to_numeric (raw_CALLS_Chng_in_OI r));
     CALLS_LTP := fillna0 (to_numeric (raw_CALLS_LTP r));
     CALLS_Net_Chng := fillna0 (to_numeric (raw_CALLS_Net_Chng r));
     PUTS_OI := fillna0 (to_numeric (raw_PUTS_OI r));
     PUTS_Chng_in_OI := fillna0 (to_numeric (raw_PUTS_Chng_in_OI r));
     PUTS_LTP := fillna0 (to_numeric (raw_PUTS_LTP r));
     PUTS_Net_Chng := fillna0 (to_numeric (raw_PUTS_Net_Chng r));
     Strike_Price := fillna0 (to_numeric (raw_Strike_Price r));
     others := raw_others r |}.

(** [dropna(subset=["Expiry_Date"])] keeps the rows whose expiry is not
    NaT, in order. *)
Fixpoint process_option_chain (df : list RawRow) : list ChainRow :=
  match df with
  | [] => []
  | r :: df' =>
      match to_datetime (raw_Expiry_Date r) with
      | Some d => numeric_row r d :: process_option_chain df'
      | None => process_option_chain df'
      end
  end.

End Normalizer.

(** ** filter_atm_range (trr.py, lines 62-68) *)

(** [df.empty] *)
Definition empty {A : Type} (df : list A) : bool :=
  match df with
  | [] => true
  | _ :: _ => false
  end.

(** [spot // 50] on floats: the floor of the quotient. *)
Definition floordiv (a b : Q) : Q := inject_Z (Qfloor (a / b)).

Definition lower_bound (spot : Q) : Q := floordiv spot 50 * 50 - STRIKE_RANGE.
Definition upper_bound (spot : Q) : Q := floordiv spot 50 * 50 + STRIKE_RANGE.

Definition in_window (spot : Q) (r : ChainRow) : bool :=
  Qle_bool (lower_bound spot) (Strike_Price r)
  && Qle_bool (Strike_Price r) (upper_bound spot).

Definition filter_atm_range (df : list ChainRow) (spot : Q) : list ChainRow :=
  if Qle_bool spot 0 || empty df then df
  else filter (in_window spot) df.

(** ** get_nearest_expiries (trr.py, lines 71-91) *)

(** Python's [sorted] and pandas' [sort_values] are stable: insertion from
    the right, each element placed before the first one it does not
    exceed. *)
Section Sorting.

Context {A : Type}.
Variable leb : A -> A -> bool.

Fixpoint insert (x : A) (l : list A) : list A :=
  match l with
  | [] => [x]
  | y :: l' => if leb x y then x :: y :: l' else y :: insert x l'
  end.

Fixpoint sorted (l : list A) : list A :=
  match l with
  | [] => []
  | x :: l' => insert x (sorted l')
  end.

End Sorting.

(** [Series.unique()]: the distinct values, in order of first appearance. *)
Fixpoint unique (l : list Timestamp) : list Timestamp :=
  match l with
  | [] => []
  | x :: l' => x :: filter (fun y => negb (ts_eqb x y)) (unique l')
  end.

(** The dictionary [month_groups]: keys [(d.year, d.month)] in insertion
    order, each with the list of its dates. *)
Definition month_key (d : Timestamp) : Z * Z := (year d, month d).

Definition key_eqb (a b : Z * Z) : bool :=
  ((fst a =? fst b) && (snd a =? snd b))%Z.

Definition groups : Type := list ((Z * Z) * list Timestamp).

Fixpoint has_key (m : Z * Z) (g : groups) : bool :=
  match g with
  | [] => false
  | (k, _) :: g' => key_eqb m k || has_key m g'
  end.

(** [month_groups[m].append(d)] *)
Fixpoint append_to (m : Z * Z) (d : Timestamp) (g : groups) : groups :=
  match g with
  | [] => []
  | (k, v) :: g' =>
      if key_eqb m k then (k, v ++ [d]) :: g' else (k, v) :: append_to m d g'
  end.

(** The body of the loop of lines 84-88. *)
Definition group_step (g : groups) (d : Timestamp) : groups :=
  let m := month_key d in
  let g := if has_key m g then g else g ++ [(m, [])] in
  append_to m d g.

Definition month_groups (all_exp : list Timestamp) : groups :=
  fold_left group_step all_exp [].

(** Python's [max] on a list: [ValueError] on the empty list. *)
Fixpoint max_from (m : Timestamp) (l : list Timestamp) : Timestamp :=
  match l with
  | [] => m
  | x :: l' => max_from (if ts_ltb m x then x else m) l'
  end.

Definition py_max (l : list Timestamp) : result Timestamp :=
  match l with
  | [] => Raise ValueError
  | x :: l' => Ok (max_from x l')
  end.

(** A list comprehension whose body may raise. *)
Fixpoint comprehension {A B : Type} (f : A -> result B) (l : list A) : result (list B) :=
  match l with
  | [] => Ok []
  | x :: l' =>
      (y <- f x ;;
       ys <- comprehension f l' ;;
       Ok (y :: ys))%result
  end.

(** [l[0]] *)
Definition item0 {A : Type} (l : list A) : result A :=
  match l with
  | [] => Raise IndexError
  | x :: _ => Ok x
  end.

(** Line 89: [max([max(v) for v in month_groups.values()])]. *)
Definition monthly_of (all_exp : list Timestamp) : result Timestamp :=
  (maxima <- comprehension py_max (map snd (month_groups all_exp)) ;;
   py_max maxima)%result.

Definition get_nearest_expiries (df : list ChainRow) : result (list Timestamp) :=
  if empty df then Ok []
  else
    let all_exp := sorted ts_leb (unique (map Expiry_Date df)) in
    if (List.length all_exp =? 1)%nat then
      (d <- item0 all_exp ;; Ok [d])%result
    else
      (weekly <- item0 all_exp ;;
       monthly <- monthly_of all_exp ;;
       Ok (sorted ts_leb (unique [weekly; monthly])))%result.

(** ** prepare_display (trr.py, lines 94-114) *)

(** The [columns=] dictionary of [rename]. *)
Definition rename_columns : list (string * string) :=
  [ ("Strike_Price", "Strike");
    ("CALLS_OI", "CE OI");
    ("CALLS_Chng_in_OI", "CE ΔOI");
    ("CALLS_LTP", "CE LTP");
    ("CALLS_Net_Chng", "CE ΔLTP");
    ("PUTS_OI", "PE OI");
    ("PUTS_Chng_in_OI", "PE ΔOI");
    ("PUTS_LTP", "PE LTP");
    ("PUTS_Net_Chng", "PE ΔLTP") ].

(** The selection list of lines 107-112: the columns of the table
    [prepare_display] returns, in order. *)
Definition display_columns : list string :=
  [ "Expiry_Date";
    "CE ΔLTP"; "CE LTP"; "CE ΔOI"; "CE OI";
    "Strike";
    "PE OI"; "PE ΔOI"; "PE LTP"; "PE ΔLTP" ].

(** [rename] on one label: a label the dictionary does not list is kept. *)
Fixpoint renamed (m : list (string * string)) (c : string) : string :=
  match m with
  | [] => c
  | (old, new) :: m' => if String.eqb c old then new else renamed m' c
  end.

(** One row of the projected table; the fields are declared in the order of
    [display_columns]. *)
Record DisplayRow : Type := mkDisplayRow {
  d_Expiry_Date : Timestamp;
  CE_dLTP : Q;
  CE_LTP : Q;
  CE_dOI : Q;
  CE_OI : Q;
  Strike : Q;
  PE_OI : Q;
  PE_dOI : Q;
  PE_LTP : Q;
  PE_dLTP : Q
}.

(** What a table holds under a label. *)
Inductive Value : Type :=
| VDate (t : Timestamp)
| VNum (q : Q)
| VCell (c : Cell).

Fixpoint lookup_other (c : string) (l : list (string * Cell)) : option Value :=
  match l with
  | [] => None
  | (k, v) :: l' => if String.eqb c k then Some (VCell v) else lookup_other c l'
  end.

(** [row[c]] on a row of the normalised table. *)
Definition chain_get (c : string) (r : ChainRow) : option Value :=
  if String.eqb c "Expiry_Date" then Some (VDate (Expiry_Date r))
  else if String.eqb c "CALLS_OI" then Some (VNum (CALLS_OI r))
  else if String.eqb c "CALLS_Chng_in_OI" then Some (VNum (CALLS_Chng_in_OI r))
  else if String.eqb c "CALLS_LTP" then Some (VNum (CALLS_LTP r))
  else if String.eqb c "CALLS_Net_Chng" then Some (VNum (CALLS_Net_Chng r))
  else if String.eqb c "PUTS_OI" then Some (VNum (PUTS_OI r))
  else if String.eqb c "PUTS_Chng_in_OI" then Some (VNum (PUTS_Chng_in_OI r))
  else if String.eqb c "PUTS_LTP" then Some (VNum (PUTS_LTP r))
  else if String.eqb c "PUTS_Net_Chng" then Some (VNum (PUTS_Net_Chng r))
  else if String.eqb c "Strike_Price" then Some (VNum (Strike_Price r))
  else lookup_other c (others r).

(** [row[c]] on a row of the projected table. *)
Definition display_get (c : string) (r : DisplayRow) : option Value :=
  if String.eqb c "Expiry_Date" then Some (VDate (d_Expiry_Date r))
  else if String.eqb c "CE ΔLTP" then Some (VNum (CE_dLTP r))
  else if String.eqb c "CE LTP" then Some (VNum (CE_LTP r))
  else if String.eqb c "CE ΔOI" then Some (VNum (CE_dOI r))
  else if String.eqb c "CE OI" then Some (VNum (CE_OI r))
  else if String.eqb c "Strike" then Some (VNum (Strike r))
  else if String.eqb c "PE OI" then Some (VNum (PE_OI r))
  else if String.eqb c "PE ΔOI" then Some (VNum (PE_dOI r))
  else if String.eqb c "PE LTP" then Some (VNum (PE_LTP r))
  else if String.eqb c "PE ΔLTP" then Some (VNum (PE_dLTP r))
  else None.

(** The renaming and the selection of the ten columns, on one row. *)
Definition project (r : ChainRow) : DisplayRow :=
  {| d_Expiry_Date := Expiry_Date r;
     CE_dLTP := CALLS_Net_Chng r;
     CE_LTP := CALLS_LTP r;
     CE_dOI := CALLS_Chng_in_OI r;
     CE_OI := CALLS_OI r;
     Strike := Strike_Price r;
     PE_OI := PUTS_OI r;
     PE_dOI := PUTS_Chng_in_OI r;
     PE_LTP := PUTS_LTP r;
     PE_dLTP := PUTS_Net_Chng r |}.

(** The order of [sort_values(["Expiry_Date", "Strike"])]. *)
Definition display_leb (a b : DisplayRow) : bool :=
  ts_ltb (d_Expiry_Date a) (d_Expiry_Date b)
  || (ts_eqb (d_Expiry_Date a) (d_Expiry_Date b) && Qle_bool (Strike a) (Strike b)).

Definition sort_values (df : list DisplayRow) : list DisplayRow :=
  sorted display_leb df.

Definition prepare_display (df : list ChainRow) : list DisplayRow :=
  sort_values (map project df).

(** The projected table read back under the names of the normalised one
    (the renaming undone); the columns the selection dropped are gone. *)
Definition unproject (r : DisplayRow) : ChainRow :=
  {| Expiry_Date := d_Expiry_Date r;
     CALLS_OI := CE_OI r;
     CALLS_Chng_in_OI := CE_dOI r;
     CALLS_LTP := CE_LTP r;
     CALLS_Net_Chng := CE_dLTP r;
     PUTS_OI := PE_OI r;
     PUTS_Chng_in_OI := PE_dOI r;
     PUTS_LTP := PE_LTP r;
     PUTS_Net_Chng := PE_dLTP r;
     Strike_Price := Strike r;
     others := [] |}.

(** ** Process-wide state and durable files (trr.py, lines 16-34) *)

Record Signal : Type := mkSignal {
  sig_Timestamp : string;
  sig_Signal : string;
  sig_Strike : Q;
  sig_Reason : string
}.

(** A completed [to_csv]. *)
Inductive DiskWrite : Type :=
| WroteSignals (log : list Signal)
| WroteSnapshot (df : list DisplayRow).

(** The globals of the module, the two files the pipeline writes ([None]:
    the file does not exist), and the writes completed so far, oldest
    first. *)
Record World : Type := mkWorld {
  latest_snapshot : list DisplayRow;
  signals_df : list Signal;
  expiry_list : list Timestamp;
  latest_spot : Q;
  last_poll_time : option string;
  SIGNALS_CSV : option (list Signal);
  SNAPSHOT_CSV : option (list DisplayRow);
  journal : list DiskWrite
}.

(** Code that reads and assigns the globals and may raise: the state at the
    raise is the state the caller finds. *)
Definition M (A : Type) : Type := World -> World * result A.

Definition ret {A : Type} (a : A) : M A := fun w => (w, Ok a).

Definition raise {A : Type} (e : exn) : M A := fun w => (w, Raise e).

Definition bind {A B : Type} (m : M A) (k : A -> M B) : M B :=
  fun w =>
    match m w with
    | (w', Ok a) => k a w'
    | (w', Raise e) => (w', Raise e)
    end.

Definition lift {A : Type} (r : result A) : M A := fun w => (w, r).

Declare Scope pass_scope.
Delimit Scope pass_scope with pass.
Notation "x <- m ;; k" := (bind m (fun x => k))
  (at level 61, m at next level, right associativity) : pass_scope.
Notation "m ;; k" := (bind m (fun _ => k))
  (at level 61, right associativity) : pass_scope.

Definition set_latest_snapshot (df : list DisplayRow) : M unit :=
  fun w =>
    (mkWorld df (signals_df w) (expiry_list w) (latest_spot w) (last_poll_time w)
       (SIGNALS_CSV w) (SNAPSHOT_CSV w) (journal w), Ok tt).

Definition set_signals_df (s : list Signal) : M unit :=
  fun w =>
    (mkWorld (latest_snapshot w) s (expiry_list w) (latest_spot w) (last_poll_time w)
       (SIGNALS_CSV w) (SNAPSHOT_CSV w) (journal w), Ok tt).

Definition set_expiry_list (l : list Timestamp) : M unit :=
  fun w =>
    (mkWorld (latest_snapshot w) (signals_df w) l (latest_spot w) (last_poll_time w)
       (SIGNALS_CSV w) (SNAPSHOT_CSV w) (journal w), Ok tt).

Definition set_latest_spot (s : Q) : M unit :=
  fun w =>
    (mkWorld (latest_snapshot w) (signals_df w) (expiry_list w) s (last_poll_time w)
       (SIGNALS_CSV w) (SNAPSHOT_CSV w) (journal w), Ok tt).

Definition set_last_poll_time (t : string) : M unit :=
  fun w =>
    (mkWorld (latest_snapshot w) (signals_df w) (expiry_list w) (latest_spot w) (Some t)
       (SIGNALS_CSV w) (SNAPSHOT_CSV w) (journal w), Ok tt).

Definition get_signals_df : M (list Signal) := fun w => (w, Ok (signals_df w)).

Definition get_latest_spot : M Q := fun w => (w, Ok (latest_spot w)).

(** What the storage does with one [to_csv]: the write completes; or
    opening the file raises [e], before the file is touched; or the file
    is opened, which empties it, and the write raises [e] after [rows] rows
    have reached it. *)
Inductive Storage : Type :=
| Accepts
| Refuses (e : exn)
| Breaks (e : exn) (rows : nat).

(** [signals_df.to_csv(SIGNALS_CSV, index=False)] *)
Definition signals_to_csv (storage : Storage) : M unit :=
  fun w =>
    match storage with
    | Accepts =>
        (mkWorld (latest_snapshot w) (signals_df w) (expiry_list w) (latest_spot w)
           (last_poll_time w) (Some (signals_df w)) (SNAPSHOT_CSV w)
           (journal w ++ [WroteSignals (signals_df w)]), Ok tt)
    | Refuses e => (w, Raise e)
    | Breaks e rows =>
        (mkWorld (latest_snapshot w) (signals_df w) (expiry_list w) (latest_spot w)
           (last_poll_time w) (Some (firstn rows (signals_df w))) (SNAPSHOT_CSV w)
           (journal w), Raise e)
    end.

(** [df.to_csv(SNAPSHOT_CSV, index=False)] *)
Definition snapshot_to_csv (storage : Storage) (df : list DisplayRow) : M unit :=
  fun w =>
    match storage with
    | Accepts =>
        (mkWorld (latest_snapshot w) (signals_df w) (expiry_list w) (latest_spot w)
           (last_poll_time w) (SIGNALS_CSV w) (Some df)
           (journal w ++ [WroteSnapshot df]), Ok tt)
    | Refuses e => (w, Raise e)
    | Breaks e rows =>
        (mkWorld (latest_snapshot w) (signals_df w) (expiry_list w) (latest_spot w)
           (last_poll_time w) (SIGNALS_CSV w) (Some (firstn rows df))
           (journal w), Raise e)
    end.

(** ** get_nifty_spot (trr.py, lines 38-47) *)

(** [response] is the [underlyingValue] the request brings back as a float,
    [None] when anything in the [try] block raises. *)
Definition get_nifty_spot (response : option Q) : Q :=
  match response with
  | Some v => v
  | None => 0
  end.

(** What [nse_live_option_chain(SYMBOL)] does: it raises, or returns
    something that is not a table, or returns a table. *)
Inductive Fetched : Type :=
| FetchRaises (e : exn)
| NotATable
| Table (df : list RawRow).

(** What one pass meets outside the process: the fetch of the chain, the
    spot response, the two readings of the clock, and what the storage
    does with each of the two writes. *)
Record Env : Type := mkEnv {
  chain : Fetched;
  spot_response : option Q;
  now_signals : string;
  now_poll : string;
  signals_storage : Storage;
  snapshot_storage : Storage
}.

Section Pipeline.

Variable to_numeric : Cell -> option Q.
Variable to_datetime : Cell -> option Timestamp.

(** How an f-string renders a number. *)
Variable format_number : Q -> string.

(** ** detect_signals (trr.py, lines 117-139) *)

Definition call_drop (df : list DisplayRow) : list DisplayRow :=
  filter (fun r => Qle_bool (CE_dOI r) (- OI_THRESHOLD)) df.

Definition put_drop (df : list DisplayRow) : list DisplayRow :=
  filter (fun r => Qle_bool (PE_dOI r) (- OI_THRESHOLD)) df.

Definition call_signal (now : string) (strike : Q) : Signal :=
  {| sig_Timestamp := now;
     sig_Signal := String.append "BUY CE " (format_number strike);
     sig_Strike := strike;
     sig_Reason := "CALL OI ↓ 500000" |}.

Definition put_signal (now : string) (strike : Q) : Signal :=
  {| sig_Timestamp := now;
     sig_Signal := String.append "BUY PE " (format_number strike);
     sig_Strike := strike;
     sig_Reason := "PUT OI ↓ 500000" |}.

(** [signals_df.loc[len(signals_df)] = row] *)
Definition append_signal (s : Signal) : M unit :=
  (log <- get_signals_df ;;
   set_signals_df (log ++ [s]))%pass.

Definition detect_signals (now : string) (storage : Storage) (df : list DisplayRow) : M unit :=
  ((if negb (empty (call_drop df)) then
      (r <- lift (item0 (call_drop df)) ;;
       let strike := Strike r + STRIKE_OFFSET in
       append_signal (call_signal now strike))
    else ret tt) ;;
   (if negb (empty (put_drop df)) then
      (r <- lift (item0 (put_drop df)) ;;
       let strike := Strike r + STRIKE_OFFSET in
       append_signal (put_signal now strike))
    else ret tt) ;;
   signals_to_csv storage)%pass.

(** ** poll_once (trr.py, lines 142-160) *)

(** [df["Expiry_Date"].isin(expiry_list)] *)
Definition isin (l : list Timestamp) (r : ChainRow) : bool :=
  existsb (ts_eqb (Expiry_Date r)) l.

Definition poll_once (env : Env) : M (list DisplayRow) :=
  match chain env with
  | FetchRaises e => raise e
  | NotATable => raise (Exception "Empty option chain")
  | Table raw =>
      if empty raw then raise (Exception "Empty option chain")
      else
        (let df := process_option_chain to_numeric to_datetime raw in
         set_latest_spot (get_nifty_spot (spot_response env)) ;;
         spot <- get_latest_spot ;;
         let df := filter_atm_range df spot in
         expiries <- lift (get_nearest_expiries df) ;;
         set_expiry_list expiries ;;
         let df := filter (isin expiries) df in
         let df := prepare_display df in
         set_latest_snapshot df ;;
         detect_signals (now_signals env) (signals_storage env) df ;;
         set_last_poll_time (now_poll env) ;;
         snapshot_to_csv (snapshot_storage env) df ;;
         ret df)%pass
  end.

End Pipeline.

(** * Specification vocabulary

    The words of the specification, stated over the tables of the
    embedding; the properties below compare the code with them. *)

Section NormalizerSpec.

Variable to_numeric : Cell -> option Q.
Variable to_datetime : Cell -> option Timestamp.

(** A numeric column holds the converted value, or 0 where the raw value
    does not convert. *)
Definition coerced (raw : Cell) (q : Q) : Prop :=
  match to_numeric raw with
  | Some v => q = v
  | None => q = 0
  end.

(** [n] is the raw row [r] normalised. *)
Definition normalises (r : RawRow) (n : ChainRow) : Prop :=
  to_datetime (raw_Expiry_Date r) = Some (Expiry_Date n)
  /\ coerced (raw_CALLS_OI r) (CALLS_OI n)
  /\ coerced (raw_CALLS_Chng_in_OI r) (CALLS_Chng_in_OI n)
  /\ coerced (raw_CALLS_LTP r) (CALLS_LTP n)
  /\ coerced (raw_CALLS_Net_Chng r) (CALLS_Net_Chng n)
  /\ coerced (raw_PUTS_OI r) (PUTS_OI n)
  /\ coerced (raw_PUTS_Chng_in_OI r) (PUTS_Chng_in_OI n)
  /\ coerced (raw_PUTS_LTP r) (PUTS_LTP n)
  /\ coerced (raw_PUTS_Net_Chng r) (PUTS_Net_Chng n)
  /\ coerced (raw_Strike_Price r) (Strike_Price n)
  /\ others n = raw_others r.

Definition parseable_expiry (r : RawRow) : bool :=
  match to_datetime (raw_Expiry_Date r) with
  | Some _ => true
  | None => false
  end.

End NormalizerSpec.

(** The strike window around the 50-point increment below the spot. *)
Definition window_center (spot : Q) : Q := inject_Z (Qfloor (spot / 50)) * 50.

Definition in_strike_window (spot : Q) (r : ChainRow) : Prop :=
  window_center spot - 250 <= Strike_Price r
  /\ Strike_Price r <= window_center spot + 250.

(** The earliest and the latest date of a collection. *)
Definition is_min (l : list Timestamp) (m : Timestamp) : Prop :=
  In m l /\ forall x, In x l -> ts_le m x.

Definition is_max (l : list Timestamp) (m : Timestamp) : Prop :=
  In m l /\ forall x, In x l -> ts_le x m.

(** The dates of one calendar month. *)
Definition month_group (dates : list Timestamp) (k : Z * Z) : list Timestamp :=
  filter (fun d => key_eqb (month_key d) k) dates.

(** The "monthly" expiry: the maximum, over the month groups, of each
    group's maximum. *)
Definition is_monthly (dates : list Timestamp) (m : Timestamp) : Prop :=
  (exists k, is_max (month_group dates k) m)
  /\ (forall k g, is_max (month_group dates k) g -> ts_le g m).

(** [l] is the sorted, deduplicated set of [a] and [b]. *)
Definition is_sorted_set (a b : Timestamp) (l : list Timestamp) : Prop :=
  (forall x, In x l <-> x = a \/ x = b) /\ StronglySorted ts_lt l.

(** [dates] lists, without repetition, the expiry dates present in [df]. *)
Definition distinct_expiries (df : list ChainRow) (dates : list Timestamp) : Prop :=
  NoDup dates /\ forall x, In x dates <-> In x (map Expiry_Date df).

(** A table with one row per given date, for the worked examples. *)
Definition row_on (d : Timestamp) (strike : Q) : ChainRow :=
  mkChainRow d 0 0 0 0 0 0 0 0 strike [].

(** The dates the dictionary [month_groups] holds, group after group. *)
Definition flat (g : groups) : list Timestamp := List.concat (map snd g).

(** The dates of the worked example. *)
Definition jan02 : Timestamp := mkTimestamp 2025 1 2.
Definition jan09 : Timestamp := mkTimestamp 2025 1 9.
Definition jan30 : Timestamp := mkTimestamp 2025 1 30.
Definition feb27 : Timestamp := mkTimestamp 2025 2 27.

(** Ascending by (expiry, strike). *)
Definition display_le (a b : DisplayRow) : Prop :=
  ts_lt (d_Expiry_Date a) (d_Expiry_Date b)
  \/ (d_Expiry_Date a = d_Expiry_Date b /\ Strike a <= Strike b).

(** The label a column of the projected table had before the renaming. *)
Fixpoint source_of (m : list (string * string)) (c : string) : string :=
  match m with
  | [] => c
  | (old, new) :: m' => if String.eqb c new then old else source_of m' c
  end.

(** An OI change at or below minus the threshold. *)
Definition breaches (x : Q) : Prop := x <= - 500000.

Definition no_breach (side : DisplayRow -> Q) (df : list DisplayRow) : Prop :=
  Forall (fun x => ~ breaches (side x)) df.

(** [r] is the first row of [df], in table order, whose OI change on the
    given side breaches the threshold. *)
Definition first_breach (side : DisplayRow -> Q) (df : list DisplayRow)
  (r : DisplayRow) : Prop :=
  exists before after,
    df = before ++ r :: after /\ no_breach side before /\ breaches (side r).

(** The rows of a durable file as the module loads it (lines 21-31): none
    when the file does not exist. *)
Definition file_rows {A : Type} (f : option (list A)) : list A :=
  match f with
  | Some l => l
  | None => []
  end.

(** The signals one call of [detect_signals] appends. *)
Definition emitted (format_number : Q -> string) (now : string)
  (df : list DisplayRow) : list Signal :=
  match call_drop df with
  | [] => []
  | r :: _ => [call_signal format_number now (Strike r + STRIKE_OFFSET)]
  end
  ++ match put_drop df with
     | [] => []
     | r :: _ => [put_signal format_number now (Strike r + STRIKE_OFFSET)]
     end.

(** A write that is not cut short: it completes, or the file is never
    opened. *)
Definition unbroken (s : Storage) : Prop :=
  match s with
  | Breaks _ _ => False
  | _ => True
  end.

(** What a pass that got past the empty-chain check leaves and returns,
    given the expiries [l] it selected and the table [df] it projected. *)
Definition pass_outcome (format_number : Q -> string) (env : Env) (w : World)
  (l : list Timestamp) (df : list DisplayRow) : World * result (list DisplayRow) :=
  let spot := get_nifty_spot (spot_response env) in
  let sigs := signals_df w ++ emitted format_number (now_signals env) df in
  match signals_storage env with
  | Accepts =>
      match snapshot_storage env with
      | Accepts =>
          (mkWorld df sigs l spot (Some (now_poll env)) (Some sigs) (Some df)
             ((journal w ++ [WroteSignals sigs]) ++ [WroteSnapshot df]), Ok df)
      | Refuses e =>
          (mkWorld df sigs l spot (Some (now_poll env)) (Some sigs)
             (SNAPSHOT_CSV w) (journal w ++ [WroteSignals sigs]), Raise e)
      | Breaks e rows =>
          (mkWorld df sigs l spot (Some (now_poll env)) (Some sigs)
             (Some (firstn rows df)) (journal w ++ [WroteSignals sigs]), Raise e)
      end
  | Refuses e =>
      (mkWorld df sigs l spot (last_poll_time w) (SIGNALS_CSV w)
         (SNAPSHOT_CSV w) (journal w), Raise e)
  | Breaks e rows =>
      (mkWorld df sigs l spot (last_poll_time w) (Some (firstn rows sigs))
         (SNAPSHOT_CSV w) (journal w), Raise e)
  end.

(** ** Worked inputs

    A conversion of numbers and of two date strings, and a rendering of
    integral floats, to run the pipeline on concrete tables. *)

Definition example_to_numeric (c : Cell) : option Q :=
  match c with
  | CNum q => Some q
  | _ => None
  end.

Definition example_to_datetime (c : Cell) : option Timestamp :=
  match c with
  | CStr s =>
      if String.eqb s "02-Jan-2025" then Some jan02
      else if String.eqb s "27-Feb-2025" then Some feb27
      else None
  | _ => None
  end.

Definition example_format (q : Q) : string :=
  String.append (NilZero.string_of_int (Z.to_int (Qfloor q))) ".0".

(** A fetched row with the given expiry, strike and call OI change. *)
Definition raw_row (expiry : string) (strike call_doi : Q) : RawRow :=
  {| raw_Expiry_Date := CStr expiry;
     raw_CALLS_OI := CNum 0;
     raw_CALLS_Chng_in_OI := CNum call_doi;
     raw_CALLS_LTP := CNum 0;
     raw_CALLS_Net_Chng := CNum 0;
     raw_PUTS_OI := CNum 0;
     raw_PUTS_Chng_in_OI := CNum 0;
     raw_PUTS_LTP := CNum 0;
     raw_PUTS_Net_Chng := CNum 0;
     raw_Strike_Price := CNum strike;
     raw_others := [("Symbol", CStr "NIFTY")] |}.

(** The state of a process started with no file on disk. *)
Definition fresh_world : World :=
  mkWorld [] [] [] 0 None None None [].

(** The state after an earlier pass that saved a one-row snapshot. *)
Definition earlier_snapshot : list DisplayRow :=
  [mkDisplayRow jan02 0 0 0 0 24300 0 0 0 0].

Definition later_world : World :=
  mkWorld earlier_snapshot [] [jan02] 24310 (Some "2025-01-01 09:15:00")
    (Some []) (Some earlier_snapshot)
    [WroteSignals []; WroteSnapshot earlier_snapshot].

(** A chain whose far expiry has no strike near the spot. *)
Definition far_month_raw : list RawRow :=
  [raw_row "02-Jan-2025" 24300 0; raw_row "27-Feb-2025" 30000 0].

Definition far_month_env : Env :=
  mkEnv (Table far_month_raw) (Some 24310)
    "2025-01-01 09:30:00" "2025-01-01 09:30:01" Accepts Accepts.

(** A chain with a call OI drop, polled while the snapshot file cannot be
    opened for writing. *)
Definition breach_raw : list RawRow :=
  [raw_row "02-Jan-2025" 24300 (-600000); raw_row "02-Jan-2025" 24350 0].

Definition breach_env : Env :=
  mkEnv (Table breach_raw) (Some 24310)
    "2025-01-01 09:30:00" "2025-01-01 09:30:01" Accepts (Refuses OSError).


(** A fetch that brings back no table. *)
Definition no_table_env : Env :=
  mkEnv NotATable (Some 24310)
    "2025-01-01 09:30:00" "2025-01-01 09:30:01" Accepts Accepts.

(** * The rest of the module *)

From Stdlib Require Import Lqa.

(** ** Module start (trr.py, lines 21-34) *)


(** ** worker_background (trr.py, lines 163-169) *)

Section Worker.

Variable to_numeric : Cell -> option Q.
Variable to_datetime : Cell -> option Timestamp.
Variable format_number : Q -> string.

(** One turn of the loop: the pass inside [try], with whatever it raises
    caught and printed. *)
Definition worker_turn (w : World) (env : Env) : World :=
  match poll_once to_numeric to_datetime format_number env w with
  | (w', Ok _) => w'
  | (w', Raise _) => w'
  end.

(** The loop does not return. [worker_background ticks w] is the state
    after its first turns, one for each environment of [ticks], in order. *)
Definition worker_background (ticks : list Env) (w : World) : World :=
  fold_left worker_turn ticks w.

End Worker.

(** ** Vocabulary for the properties of the rest *)

(** [l] extends [l0] at the end. *)
Definition extends {A : Type} (l0 l : list A) : Prop :=
  exists new, l = l0 ++ new.


(** Writes in which each snapshot write comes right after a log write. *)
Inductive paired : list DiskWrite -> Prop :=
| paired_nil : paired []
| paired_log (s : list Signal) (l : list DiskWrite) :
    paired l -> paired (WroteSignals s :: l)
| paired_both (s : list Signal) (d : list DisplayRow) (l : list DiskWrite) :
    paired l -> paired (WroteSignals s :: WroteSnapshot d :: l).

(** The fetch brought back nothing to poll. *)
Definition nothing_fetched (env : Env) : Prop :=
  chain env = NotATable \/ chain env = Table [].

(** An entry of the dictionary [month_groups] built from [l] holds the
    dates of [l] of its month, in the order of [l], and has some. *)
Definition entry_ok (l : list Timestamp) (kv : (Z * Z) * list Timestamp) : Prop :=
  snd kv = month_group l (fst kv) /\ snd kv <> [].

(** The environment [env] with the given answers of the storage to the two
    writes. *)
Definition with_writes (signals snapshot : Storage) (env : Env) : Env :=
  mkEnv (chain env) (spot_response env) (now_signals env) (now_poll env)
    signals snapshot.

(** The chain with a call OI drop, polled with both writes succeeding. *)
Definition saved_breach_env : Env := with_writes Accepts Accepts breach_env.

(** The same chain, polled while the log write raises after the file was
    opened and before any row reached it. *)
Definition torn_log_env : Env :=
  with_writes (Breaks OSError 0) Accepts breach_env.


(** The state after the pass of [torn_log_env] from [later_world], and the
    state after the pass of [saved_breach_env] that follows it. *)
Definition after_torn_log : World :=
  fst (poll_once example_to_numeric example_to_datetime example_format
         torn_log_env later_world).

Definition after_recovery : World :=
  fst (poll_once example_to_numeric example_to_datetime example_format
         saved_breach_env after_torn_log).
(** * Properties *)

(** ** The order on timestamps *)

Ltac ts_order :=
  unfold ts_le, ts_lt, ts_leb, ts_ltb, ts_eqb, ts_compare in *; simpl in *;
  repeat match goal with
         | H : context [(?x ?= ?y)%Z] |- _ => destruct (Z.compare_spec x y); subst
         | |- context [(?x ?= ?y)%Z] => destruct (Z.compare_spec x y); subst
         end;
  try discriminate; try reflexivity; try lia; auto.

Lemma ts_eqb_eq (a b : Timestamp) : ts_eqb a b = true <-> a = b.
Proof.
  destruct a as [ya ma da], b as [yb mb db]; split; intros H.
  - ts_order.
  - inversion H; subst. ts_order.
Qed.

Lemma ts_eqb_refl (a : Timestamp) : ts_eqb a a = true.
Proof. now apply ts_eqb_eq. Qed.

Lemma ts_le_refl (a : Timestamp) : ts_le a a.
Proof. destruct a; ts_order. Qed.

Lemma ts_leb_total (a b : Timestamp) : ts_leb a b = true \/ ts_leb b a = true.
Proof. destruct a, b; ts_order. Qed.

Lemma ts_le_trans (a b c : Timestamp) : ts_le a b -> ts_le b c -> ts_le a c.
Proof. destruct a, b, c; intros H1 H2; ts_order. Qed.

Lemma ts_le_antisym (a b : Timestamp) : ts_le a b -> ts_le b a -> a = b.
Proof. destruct a, b; intros H1 H2; ts_order. Qed.

Lemma ts_ltb_leb (a b : Timestamp) : ts_ltb a b = negb (ts_leb b a).
Proof. destruct a, b; ts_order. Qed.

Lemma ts_lt_le (a b : Timestamp) : ts_lt a b -> ts_le a b.
Proof. destruct a, b; intros H; ts_order. Qed.

Lemma ts_lt_neq (a b : Timestamp) : ts_lt a b -> a <> b.
Proof. intros H E; subst. destruct b; ts_order. Qed.

Lemma ts_le_neq_lt (a b : Timestamp) : ts_le a b -> a <> b -> ts_lt a b.
Proof.
  intros H N. unfold ts_lt. rewrite ts_ltb_leb.
  destruct (ts_leb b a) eqn:E; [|reflexivity].
  exfalso; apply N; now apply ts_le_antisym.
Qed.

(** ** The stable sort *)

Section SortingFacts.

Context {A : Type}.
Variable leb : A -> A -> bool.
Hypothesis leb_total : forall a b, leb a b = true \/ leb b a = true.

Let le (a b : A) : Prop := leb a b = true.

Lemma insert_perm (x : A) (l : list A) : Permutation (x :: l) (insert leb x l).
Proof.
  induction l as [|y l IH]; simpl.
  - apply Permutation_refl.
  - destruct (leb x y).
    + apply Permutation_refl.
    + apply perm_trans with (y :: x :: l).
      * apply perm_swap.
      * now apply perm_skip.
Qed.

Lemma sorted_perm (l : list A) : Permutation l (sorted leb l).
Proof.
  induction l as [|x l IH]; simpl.
  - apply perm_nil.
  - apply perm_trans with (x :: sorted leb l).
    + now apply perm_skip.
    + apply insert_perm.
Qed.

Lemma insert_HdRel (a x : A) (l : list A) :
  le a x -> HdRel le a l -> HdRel le a (insert leb x l).
Proof.
  intros Hax Hal. destruct l as [|y l]; simpl.
  - now constructor.
  - destruct (leb x y); constructor; auto.
    now inversion Hal.
Qed.

Lemma insert_Sorted (x : A) (l : list A) :
  Sorted le l -> Sorted le (insert leb x l).
Proof.
  induction l as [|y l IH]; simpl; intros Hs.
  - repeat constructor.
  - destruct (leb x y) eqn:E.
    + constructor; [assumption|]. now constructor.
    + inversion Hs; subst. constructor.
      * now apply IH.
      * apply insert_HdRel; [|assumption].
        destruct (leb_total x y) as [H|H]; [congruence|exact H].
Qed.

Lemma sorted_Sorted (l : list A) : Sorted le (sorted leb l).
Proof.
  induction l as [|x l IH]; simpl.
  - constructor.
  - now apply insert_Sorted.
Qed.

(** A stable sort leaves a sorted list as it is. *)
Lemma sorted_fixed (l : list A) : Sorted le l -> sorted leb l = l.
Proof.
  induction l as [|x l IH]; simpl; intros Hs; [reflexivity|].
  inversion Hs as [|? ? Hl Hh]; subst.
  rewrite (IH Hl).
  destruct l as [|y l]; simpl; [reflexivity|].
  inversion Hh as [|? ? Hxy]; subst.
  unfold le in Hxy. now rewrite Hxy.
Qed.

Lemma sorted_idempotent (l : list A) : sorted leb (sorted leb l) = sorted leb l.
Proof. apply sorted_fixed, sorted_Sorted. Qed.

End SortingFacts.

(** ** ChainNormalizer *)

Section NormalizerFacts.

Variable to_numeric : Cell -> option Q.
Variable to_datetime : Cell -> option Timestamp.

Lemma coerced_fillna0 (raw : Cell) : coerced to_numeric raw (fillna0 (to_numeric raw)).
Proof. unfold coerced. now destruct (to_numeric raw). Qed.

Lemma numeric_row_normalises (r : RawRow) (d : Timestamp) :
  to_datetime (raw_Expiry_Date r) = Some d ->
  normalises to_numeric to_datetime r (numeric_row to_numeric r d).
Proof.
  intros Hd. unfold normalises; simpl.
  repeat split; try apply coerced_fillna0. exact Hd.
Qed.

(** C5. Normalisation is a total function of the raw table. Its output is,
    in order, one row for each raw row whose expiry converts: that row
    carries the converted expiry, each of the nine numeric columns
    converted with 0 in place of a value that does not convert, and the
    other columns as they were. The raw rows whose expiry does not convert
    are the only ones left out. *)
Theorem process_option_chain_normalises (df : list RawRow) :
  Forall2 (normalises to_numeric to_datetime)
    (filter (parseable_expiry to_datetime) df)
    (process_option_chain to_numeric to_datetime df).
Proof.
  induction df as [|r df IH]; simpl.
  - constructor.
  - unfold parseable_expiry at 1.
    destruct (to_datetime (raw_Expiry_Date r)) as [d|] eqn:Hd.
    + constructor; [now apply numeric_row_normalises | exact IH].
    + exact IH.
Qed.

End NormalizerFacts.

(** ** StrikeWindowFilter *)

Lemma in_window_iff (spot : Q) (r : ChainRow) :
  in_window spot r = true <-> in_strike_window spot r.
Proof.
  unfold in_window, in_strike_window.
  rewrite andb_true_iff, !Qle_bool_iff. reflexivity.
Qed.

Lemma filter_atm_range_open (df : list ChainRow) (spot : Q) :
  spot <= 0 \/ df = [] -> filter_atm_range df spot = df.
Proof.
  intros [H|H]; unfold filter_atm_range.
  - apply Qle_bool_iff in H. now rewrite H.
  - subst. now rewrite orb_true_r.
Qed.

Lemma filter_atm_range_filters (df : list ChainRow) (spot : Q) :
  0 < spot -> df <> [] -> filter_atm_range df spot = filter (in_window spot) df.
Proof.
  intros Hs Hne. unfold filter_atm_range.
  destruct (Qle_bool spot 0) eqn:E.
  - apply Qle_bool_iff in E. exfalso. now apply (Qlt_not_le 0 spot).
  - destruct df; [congruence | reflexivity].
Qed.

Lemma bounds_24310 : lower_bound 24310 = 24050 /\ upper_bound 24310 = 24550.
Proof. split; vm_compute; reflexivity. Qed.

(** C2. With a positive spot and a non-empty table the filter keeps, in
    order and unchanged, exactly the rows whose strike lies between
    floor(S/50)*50 - 250 and floor(S/50)*50 + 250, both ends included; with
    a spot that is not positive, or an empty table, it returns its input.
    At spot 24310 the centre is 24300: a row of strike 24000 is left out
    and a row of strike 24100 is kept. *)
Theorem filter_atm_range_window (df : list ChainRow) (spot : Q) :
  (0 < spot /\ df <> [] ->
     exists keep : ChainRow -> bool,
       (forall r, keep r = true <-> in_strike_window spot r)
       /\ filter_atm_range df spot = filter keep df)
  /\ (spot <= 0 \/ df = [] -> filter_atm_range df spot = df)
  /\ (window_center 24310 == 24300
      /\ forall r,
           (Strike_Price r == 24000 -> ~ In r (filter_atm_range df 24310))
           /\ (Strike_Price r == 24100 -> In r df -> In r (filter_atm_range df 24310))).
Proof.
  split; [|split; [|split]].
  - intros [Hs Hne]. exists (in_window spot). split.
    + intros r. apply in_window_iff.
    + now apply filter_atm_range_filters.
  - apply filter_atm_range_open.
  - vm_compute. reflexivity.
  - assert (Hpos : 0 < 24310) by reflexivity.
    destruct bounds_24310 as [Hlo Hhi].
    intros r; split.
    + intros Hk Hin. destruct df as [|r0 df0]; [exact Hin|].
      rewrite filter_atm_range_filters in Hin by (auto; discriminate).
      apply filter_In in Hin. destruct Hin as [_ Hw].
      unfold in_window in Hw. apply andb_true_iff in Hw. destruct Hw as [Hw _].
      apply Qle_bool_iff in Hw. rewrite Hlo, Hk in Hw.
      revert Hw. unfold Qle; simpl. lia.
    + intros Hk Hin. destruct df as [|r0 df0]; [exact Hin|].
      rewrite filter_atm_range_filters by (auto; discriminate).
      apply filter_In. split; [exact Hin|].
      unfold in_window. rewrite Hlo, Hhi.
      apply andb_true_iff; split; apply Qle_bool_iff; rewrite Hk;
        unfold Qle; simpl; lia.
Qed.

(** ** ExpirySelector *)

Lemma unique_In (l : list Timestamp) (x : Timestamp) : In x (unique l) <-> In x l.
Proof.
  induction l as [|y l IH]; simpl; [tauto|].
  rewrite filter_In, IH. split.
  - intros [H|[H _]]; auto.
  - intros [H|H]; auto.
    destruct (ts_eqb y x) eqn:E.
    + left. now apply ts_eqb_eq.
    + right. now split.
Qed.

Lemma unique_NoDup (l : list Timestamp) : NoDup (unique l).
Proof.
  induction l as [|y l IH]; simpl; constructor.
  - rewrite filter_In. intros [_ H]. now rewrite ts_eqb_refl in H.
  - now apply NoDup_filter.
Qed.

Lemma unique_distinct (df : list ChainRow) :
  distinct_expiries df (unique (map Expiry_Date df)).
Proof. split; [apply unique_NoDup | intros x; apply unique_In]. Qed.

Lemma is_min_unique (l : list Timestamp) (a b : Timestamp) :
  is_min l a -> is_min l b -> a = b.
Proof. intros [Ha Hla] [Hb Hlb]. apply ts_le_antisym; auto. Qed.

Lemma is_max_unique (l : list Timestamp) (a b : Timestamp) :
  is_max l a -> is_max l b -> a = b.
Proof. intros [Ha Hla] [Hb Hlb]. apply ts_le_antisym; auto. Qed.

Lemma is_max_ext (l l' : list Timestamp) (m : Timestamp) :
  (forall x, In x l <-> In x l') -> is_max l m -> is_max l' m.
Proof.
  intros E [Hm Hl]. split; [now apply E|].
  intros x Hx. now apply Hl, E.
Qed.

Lemma is_min_ext (l l' : list Timestamp) (m : Timestamp) :
  (forall x, In x l <-> In x l') -> is_min l m -> is_min l' m.
Proof.
  intros E [Hm Hl]. split; [now apply E|].
  intros x Hx. now apply Hl, E.
Qed.

Lemma max_from_spec (l : list Timestamp) :
  forall m, is_max (m :: l) (max_from m l).
Proof.
  induction l as [|x l IH]; intros m; simpl.
  - split; [now left|]. intros y [<-|[]]. apply ts_le_refl.
  - destruct (IH (if ts_ltb m x then x else m)) as [Hin Hle].
    assert (Hm : ts_le m (if ts_ltb m x then x else m)
                 /\ ts_le x (if ts_ltb m x then x else m)).
    { destruct (ts_ltb m x) eqn:E.
      - split; [now apply ts_lt_le | apply ts_le_refl].
      - split; [apply ts_le_refl|].
        rewrite ts_ltb_leb in E. unfold ts_le.
        now destruct (ts_leb x m). }
    destruct Hm as [Hm Hx].
    assert (Htop : ts_le (if ts_ltb m x then x else m)
                     (max_from (if ts_ltb m x then x else m) l))
      by (apply Hle; now left).
    split.
    + destruct Hin as [Hin|Hin].
      * rewrite <- Hin. destruct (ts_ltb m x); simpl; auto.
      * right; now right.
    + intros y [<-|[<-|Hy]].
      * eapply ts_le_trans; eauto.
      * eapply ts_le_trans; eauto.
      * apply Hle. now right.
Qed.

Lemma py_max_spec (l : list Timestamp) :
  l <> [] -> exists m, py_max l = Ok m /\ is_max l m.
Proof.
  destruct l as [|x l]; [congruence|]. intros _.
  exists (max_from x l). split; [reflexivity | apply max_from_spec].
Qed.

Lemma append_to_miss (m : Z * Z) (d : Timestamp) (g g2 : groups) :
  has_key m g = false -> append_to m d (g ++ g2) = g ++ append_to m d g2.
Proof.
  induction g as [|[k v] g IH]; simpl; intros H; [reflexivity|].
  apply orb_false_iff in H. destruct H as [Hk Hg].
  rewrite Hk. now rewrite IH.
Qed.

Lemma append_to_hit_In (m : Z * Z) (d : Timestamp) (g : groups) (x : Timestamp) :
  has_key m g = true ->
  (In x (flat (append_to m d g)) <-> In x (flat g) \/ x = d).
Proof.
  unfold flat.
  induction g as [|[k v] g IH]; simpl; intros H; [discriminate|].
  destruct (key_eqb m k) eqn:E; simpl.
  - rewrite !in_app_iff. simpl. split.
    + intros [[Hx|[Hx|[]]]|Hx]; auto.
    + intros [[Hx|Hx]|Hx]; auto.
  - simpl in H. rewrite in_app_iff, IH by exact H.
    rewrite in_app_iff. tauto.
Qed.

Lemma append_to_nonempty (m : Z * Z) (d : Timestamp) (g : groups) :
  Forall (fun kv => snd kv <> []) g ->
  Forall (fun kv => snd kv <> []) (append_to m d g).
Proof.
  induction g as [|[k v] g IH]; simpl; intros H; [constructor|].
  inversion H; subst.
  destruct (key_eqb m k); constructor; simpl; auto.
  intros E. now apply app_eq_nil in E as [_ E].
Qed.

Lemma key_eqb_refl (k : Z * Z) : key_eqb k k = true.
Proof. unfold key_eqb. now rewrite !Z.eqb_refl. Qed.

Lemma group_step_inv (g : groups) (d : Timestamp) :
  Forall (fun kv => snd kv <> []) g ->
  Forall (fun kv => snd kv <> []) (group_step g d)
  /\ forall x, In x (flat (group_step g d)) <-> In x (flat g) \/ x = d.
Proof.
  intros Hne. unfold group_step.
  destruct (has_key (month_key d) g) eqn:E.
  - split; [now apply append_to_nonempty|].
    intros x. now apply append_to_hit_In.
  - rewrite append_to_miss by exact E. simpl.
    rewrite key_eqb_refl. simpl. split.
    + apply Forall_app. split; [exact Hne|].
      constructor; [simpl; discriminate | constructor].
    + intros x. unfold flat. rewrite map_app, concat_app, in_app_iff. simpl.
      intuition congruence.
Qed.

Lemma fold_group_step_inv (l : list Timestamp) :
  forall g,
    Forall (fun kv => snd kv <> []) g ->
    Forall (fun kv => snd kv <> []) (fold_left group_step l g)
    /\ forall x, In x (flat (fold_left group_step l g)) <-> In x (flat g) \/ In x l.
Proof.
  induction l as [|d l IH]; simpl; intros g Hne.
  - split; [exact Hne | intros x; tauto].
  - destruct (group_step_inv g d Hne) as [Hne' Hin'].
    destruct (IH _ Hne') as [Hne'' Hin''].
    split; [exact Hne''|].
    intros x. rewrite Hin'', Hin'. split.
    + intros [[H|H]|H]; auto.
    + intros [H|[H|H]]; auto.
Qed.

Lemma month_groups_inv (l : list Timestamp) :
  Forall (fun kv => snd kv <> []) (month_groups l)
  /\ forall x, In x (flat (month_groups l)) <-> In x l.
Proof.
  destruct (fold_group_step_inv l [] (Forall_nil _)) as [H1 H2].
  split; [exact H1|].
  intros x. unfold month_groups. rewrite H2. simpl. tauto.
Qed.

Lemma comprehension_py_max (vs : list (list Timestamp)) :
  Forall (fun v => v <> []) vs ->
  exists ms, comprehension py_max vs = Ok ms /\ Forall2 is_max vs ms.
Proof.
  induction vs as [|v vs IH]; simpl; intros H.
  - exists []. split; [reflexivity | constructor].
  - inversion H as [|? ? Hv Hvs]; subst.
    destruct (py_max_spec v Hv) as [m [Em Hm]].
    destruct (IH Hvs) as [ms [Ems Hms]].
    exists (m :: ms). rewrite Em; simpl. rewrite Ems; simpl.
    split; [reflexivity | now constructor].
Qed.

Lemma maxima_In (vs : list (list Timestamp)) (ms : list Timestamp) (m : Timestamp) :
  Forall2 is_max vs ms -> In m ms -> In m (List.concat vs).
Proof.
  intros HF. induction HF as [|v m' vs' ms' Hv HF IH]; simpl; intros Hin.
  - contradiction.
  - apply in_app_iff. destruct Hin as [<-|Hin].
    + left. apply Hv.
    + right. now apply IH.
Qed.

Lemma maxima_bound (vs : list (list Timestamp)) (ms : list Timestamp) (x : Timestamp) :
  Forall2 is_max vs ms -> In x (List.concat vs) ->
  exists m, In m ms /\ ts_le x m.
Proof.
  intros HF. induction HF as [|v m' vs' ms' Hv HF IH]; simpl; intros Hin.
  - contradiction.
  - apply in_app_iff in Hin. destruct Hin as [Hin|Hin].
    + exists m'. split; [now left | now apply Hv].
    + destruct (IH Hin) as [m [Hm Hle]]. exists m. split; [now right | exact Hle].
Qed.

Lemma maxima_max (vs : list (list Timestamp)) (ms : list Timestamp) (m : Timestamp) :
  Forall2 is_max vs ms -> is_max ms m -> is_max (List.concat vs) m.
Proof.
  intros HF [Hin Hle]. split.
  - now apply maxima_In with ms.
  - intros x Hx. destruct (maxima_bound vs ms x HF Hx) as [m' [Hm' Hxm]].
    apply ts_le_trans with m'; auto.
Qed.

(** The maximum of the group maxima is the maximum of the dates. *)
Lemma monthly_of_max (l : list Timestamp) (hi : Timestamp) :
  is_max l hi -> monthly_of l = Ok hi.
Proof.
  intros Hhi. unfold monthly_of.
  destruct (month_groups_inv l) as [Hne Hin].
  assert (Hvs : Forall (fun v => v <> []) (map snd (month_groups l))).
  { clear -Hne. induction Hne; simpl; constructor; auto. }
  destruct (comprehension_py_max _ Hvs) as [ms [Ems Hms]].
  rewrite Ems; simpl.
  assert (Hms_ne : ms <> []).
  { intros ->. inversion Hms as [E|]; subst.
    destruct Hhi as [Hh _]. apply Hin in Hh.
    unfold flat in Hh. rewrite <- E in Hh. exact Hh. }
  destruct (py_max_spec ms Hms_ne) as [m [Em Hm]].
  rewrite Em. f_equal.
  apply (is_max_unique l); [|exact Hhi].
  apply is_max_ext with (flat (month_groups l)); [exact Hin|].
  now apply maxima_max with ms.
Qed.

Lemma get_nearest_expiries_nonempty (df : list ChainRow) :
  df <> [] ->
  get_nearest_expiries df =
  let all_exp := sorted ts_leb (unique (map Expiry_Date df)) in
  if (List.length all_exp =? 1)%nat then
    (d <- item0 all_exp ;; Ok [d])%result
  else
    (weekly <- item0 all_exp ;;
     monthly <- monthly_of all_exp ;;
     Ok (sorted ts_leb (unique [weekly; monthly])))%result.
Proof. destruct df; [congruence | reflexivity]. Qed.

#[local] Instance ts_le_Transitive : RelationClasses.Transitive ts_le.
Proof. intros a b c. apply ts_le_trans. Qed.

(** The list [all_exp] of line 75 enumerates the distinct dates in
    ascending order. *)
Lemma all_exp_spec (df : list ChainRow) (dates : list Timestamp) :
  distinct_expiries df dates ->
  let all_exp := sorted ts_leb (unique (map Expiry_Date df)) in
  Permutation dates all_exp /\ StronglySorted ts_le all_exp.
Proof.
  intros [Hnd Hin] all_exp.
  assert (Hperm : Permutation (unique (map Expiry_Date df)) all_exp)
    by apply sorted_perm.
  split.
  - apply NoDup_Permutation; [exact Hnd | |].
    + apply (Permutation_NoDup Hperm), unique_NoDup.
    + intros x. rewrite Hin, <- unique_In.
      split; intros H.
      * now apply (Permutation_in _ Hperm).
      * now apply (Permutation_in _ (Permutation_sym Hperm)).
  - apply Sorted_StronglySorted; [exact ts_le_Transitive|].
    apply (sorted_Sorted ts_leb ts_leb_total).
Qed.

Lemma sorted_head_min (x : Timestamp) (l : list Timestamp) :
  StronglySorted ts_le (x :: l) -> is_min (x :: l) x.
Proof.
  intros H. inversion H as [|? ? _ HF]; subst.
  split; [now left|].
  intros y [<-|Hy]; [apply ts_le_refl|].
  rewrite Forall_forall in HF. now apply HF.
Qed.

Lemma min_lt_max (dates : list Timestamp) (lo hi : Timestamp) :
  NoDup dates -> (2 <= List.length dates)%nat ->
  is_min dates lo -> is_max dates hi -> ts_lt lo hi.
Proof.
  intros Hnd Hlen [Hlo Hmin] [Hhi Hmax].
  apply ts_le_neq_lt; [now apply Hmin|].
  intros E; subst hi.
  assert (Hall : forall x, In x dates -> x = lo).
  { intros x Hx. apply ts_le_antisym; [now apply Hmax | now apply Hmin]. }
  destruct dates as [|a [|b rest]]; simpl in Hlen; try lia.
  inversion Hnd as [|? ? Hna _]; subst.
  apply Hna. left.
  rewrite (Hall a), (Hall b); simpl; auto.
Qed.

Lemma sorted_pair (lo hi : Timestamp) :
  ts_lt lo hi -> sorted ts_leb (unique [lo; hi]) = [lo; hi].
Proof.
  intros H. simpl.
  assert (E : ts_eqb lo hi = false).
  { destruct (ts_eqb lo hi) eqn:E; [|reflexivity].
    apply ts_eqb_eq in E. now apply ts_lt_neq in H. }
  rewrite E; simpl.
  apply ts_lt_le in H. unfold ts_le in H. now rewrite H.
Qed.

(** What the selector returns, by the number of distinct dates. *)
Lemma get_nearest_expiries_cases (df : list ChainRow) (dates : list Timestamp) :
  distinct_expiries df dates ->
  match dates with
  | [] => get_nearest_expiries df = Ok []
  | [d] => get_nearest_expiries df = Ok [d]
  | _ :: _ :: _ =>
      exists lo hi,
        is_min dates lo /\ is_max dates hi /\ ts_lt lo hi
        /\ monthly_of (sorted ts_leb (unique (map Expiry_Date df))) = Ok hi
        /\ get_nearest_expiries df = Ok [lo; hi]
  end.
Proof.
  intros Hd. pose proof (all_exp_spec df dates Hd) as [Hperm Hss].
  destruct Hd as [Hnd Hin].
  assert (Hdf : dates <> [] -> df <> []).
  { intros Hne ->. destruct dates as [|d ?]; [congruence|].
    apply (Hin d). now left. }
  pose proof (Permutation_length Hperm) as Hlen.
  destruct dates as [|d [|d2 rest]].
  - destruct df as [|r df]; [reflexivity|].
    exfalso. apply (Hin (Expiry_Date r)). now left.
  - rewrite get_nearest_expiries_nonempty by (apply Hdf; discriminate).
    apply Permutation_length_1_inv in Hperm.
    cbv zeta. rewrite Hperm. reflexivity.
  - rewrite get_nearest_expiries_nonempty by (apply Hdf; discriminate).
    cbv zeta.
    remember (sorted ts_leb (unique (map Expiry_Date df))) as all_exp eqn:Eall.
    destruct all_exp as [|lo [|x rest']]; simpl in Hlen; try discriminate.
    assert (Hmin : is_min (d :: d2 :: rest) lo).
    { apply is_min_ext with (lo :: x :: rest').
      - intros y. split; intros Hy.
        + now apply (Permutation_in _ (Permutation_sym Hperm)).
        + now apply (Permutation_in _ Hperm).
      - now apply sorted_head_min. }
    destruct (py_max_spec (lo :: x :: rest')) as [hi [_ Hmax']]; [discriminate|].
    assert (Hmax : is_max (d :: d2 :: rest) hi).
    { apply is_max_ext with (lo :: x :: rest'); [|exact Hmax'].
      intros y. split; intros Hy.
      - now apply (Permutation_in _ (Permutation_sym Hperm)).
      - now apply (Permutation_in _ Hperm). }
    assert (Hlt : ts_lt lo hi).
    { apply (min_lt_max (d :: d2 :: rest)); auto. simpl; lia. }
    exists lo, hi. repeat split; try apply Hmin; try apply Hmax; auto.
    + now apply monthly_of_max.
    + change (List.length (lo :: x :: rest') =? 1)%nat with false.
      cbv iota. unfold item0, rbind at 1.
      rewrite (monthly_of_max _ hi Hmax'). unfold rbind.
      now rewrite sorted_pair.
Qed.

Lemma max_is_monthly (dates : list Timestamp) (hi : Timestamp) :
  is_max dates hi -> is_monthly dates hi.
Proof.
  intros [Hin Hle]. split.
  - exists (month_key hi). split.
    + apply filter_In. split; [exact Hin | apply key_eqb_refl].
    + intros x Hx. apply filter_In in Hx. now apply Hle.
  - intros k g [Hg _]. apply filter_In in Hg. now apply Hle.
Qed.

Lemma monthly_is_max (dates : list Timestamp) (hi m : Timestamp) :
  is_max dates hi -> is_monthly dates m -> m = hi.
Proof.
  intros Hmax [[k [Hk _]] Hall].
  apply filter_In in Hk. destruct Hk as [Hm _].
  apply ts_le_antisym.
  - now apply Hmax.
  - destruct (max_is_monthly dates hi Hmax) as [[k' Hk'] _].
    now apply (Hall k').
Qed.

Lemma pair_sorted_set (lo hi : Timestamp) :
  ts_lt lo hi -> is_sorted_set lo hi [lo; hi].
Proof.
  intros H. split.
  - intros x. simpl. intuition congruence.
  - repeat constructor. exact H.
Qed.

Lemma example_dates_min : is_min [jan02; jan09; jan30; feb27] jan02.
Proof.
  split; [now left|].
  intros x [<-|[<-|[<-|[<-|[]]]]]; reflexivity.
Qed.

Lemma example_dates_max : is_max [jan02; jan09; jan30; feb27] feb27.
Proof.
  split; [simpl; auto|].
  intros x [<-|[<-|[<-|[<-|[]]]]]; reflexivity.
Qed.

(** C3. Let [dates] list the distinct expiry dates of the table. With no
    date the selector returns the empty list; with one date, that date;
    otherwise the sorted, deduplicated set of weekly and monthly, where
    weekly is the minimum of the dates and monthly the maximum over the
    (year, month) groups of each group's maximum. For the dates 2025-01-02,
    2025-01-09, 2025-01-30 and 2025-02-27 the result is 2025-01-02 and
    2025-02-27; for the single date 2025-01-02 it is that date. *)
Theorem get_nearest_expiries_selects (df : list ChainRow) (dates : list Timestamp) :
  distinct_expiries df dates ->
  match dates with
  | [] => get_nearest_expiries df = Ok []
  | [d] => get_nearest_expiries df = Ok [d]
  | _ :: _ :: _ =>
      exists weekly monthly l,
        is_min dates weekly /\ is_monthly dates monthly
        /\ is_sorted_set weekly monthly l
        /\ get_nearest_expiries df = Ok l
  end
  /\ (dates = [jan02; jan09; jan30; feb27] ->
      get_nearest_expiries df = Ok [jan02; feb27])
  /\ (dates = [jan02] -> get_nearest_expiries df = Ok [jan02]).
Proof.
  intros Hd. pose proof (get_nearest_expiries_cases df dates Hd) as Hc.
  split; [|split].
  - destruct dates as [|d [|d2 rest]]; try exact Hc.
    destruct Hc as [lo [hi [Hmin [Hmax [Hlt [_ Hres]]]]]].
    exists lo, hi, [lo; hi].
    split; [exact Hmin|]. split; [exact (max_is_monthly _ _ Hmax)|].
    split; [exact (pair_sorted_set _ _ Hlt) | exact Hres].
  - intros ->. destruct Hc as [lo [hi [Hmin [Hmax [_ [_ Hres]]]]]].
    rewrite Hres.
    rewrite (is_min_unique _ _ _ Hmin example_dates_min).
    rewrite (is_max_unique _ _ _ Hmax example_dates_max).
    reflexivity.
  - intros ->. exact Hc.
Qed.

Lemma example_table_dates :
  distinct_expiries
    [row_on jan09 24300; row_on jan02 24300; row_on feb27 24300;
     row_on jan30 24300; row_on jan02 24350]
    [jan02; jan09; jan30; feb27].
Proof.
  split.
  - repeat constructor; simpl; intuition discriminate.
  - intros x; simpl; intuition.
Qed.

Lemma get_nearest_expiries_selects_witness :
  get_nearest_expiries
    [row_on jan09 24300; row_on jan02 24300; row_on feb27 24300;
     row_on jan30 24300; row_on jan02 24350]
  = Ok [jan02; feb27].
Proof.
  apply (get_nearest_expiries_selects _ _ example_table_dates).
  reflexivity.
Defined.

(** C8. With two or more distinct expiry dates, the monthly value the
    selector computes (the maximum over the month groups of each group's
    maximum) is the maximum of all the dates, any monthly value in the
    sense of the grouping is that maximum, and the selector returns the
    earliest and the latest date, in this order. *)
Theorem monthly_is_latest (df : list ChainRow) (dates : list Timestamp) :
  distinct_expiries df dates ->
  (2 <= List.length dates)%nat ->
  exists earliest latest,
    is_min dates earliest /\ is_max dates latest
    /\ monthly_of (sorted ts_leb (unique (map Expiry_Date df))) = Ok latest
    /\ (forall m, is_monthly dates m -> m = latest)
    /\ is_sorted_set earliest latest [earliest; latest]
    /\ get_nearest_expiries df = Ok [earliest; latest].
Proof.
  intros Hd Hlen. pose proof (get_nearest_expiries_cases df dates Hd) as Hc.
  destruct dates as [|d [|d2 rest]]; simpl in Hlen; try lia.
  destruct Hc as [lo [hi [Hmin [Hmax [Hlt [Hmon Hres]]]]]].
  exists lo, hi. split; [exact Hmin|]. split; [exact Hmax|].
  split; [exact Hmon|]. split; [|split; [|exact Hres]].
  - intros m Hm. now apply (monthly_is_max (d :: d2 :: rest)).
  - now apply pair_sorted_set.
Qed.

Lemma monthly_is_latest_witness :
  exists earliest latest,
    is_min [jan02; jan09; jan30; feb27] earliest
    /\ is_max [jan02; jan09; jan30; feb27] latest
    /\ monthly_of
         (sorted ts_leb
            (unique
               (map Expiry_Date
                  [row_on jan09 24300; row_on jan02 24300; row_on feb27 24300;
                   row_on jan30 24300; row_on jan02 24350]))) = Ok latest
    /\ (forall m, is_monthly [jan02; jan09; jan30; feb27] m -> m = latest)
    /\ is_sorted_set earliest latest [earliest; latest]
    /\ get_nearest_expiries
         [row_on jan09 24300; row_on jan02 24300; row_on feb27 24300;
          row_on jan30 24300; row_on jan02 24350] = Ok [earliest; latest].
Proof.
  apply (monthly_is_latest _ _ example_table_dates).
  simpl. lia.
Defined.

(** ** DisplayProjector *)

Lemma ts_trichotomy (a b : Timestamp) :
  ts_ltb a b = true \/ a = b \/ ts_ltb b a = true.
Proof.
  destruct (ts_leb a b) eqn:Eab; destruct (ts_leb b a) eqn:Eba.
  - right; left. now apply ts_le_antisym.
  - left. rewrite ts_ltb_leb, Eba. reflexivity.
  - right; right. rewrite ts_ltb_leb, Eab. reflexivity.
  - destruct (ts_leb_total a b); congruence.
Qed.

Lemma Qle_bool_total (x y : Q) : Qle_bool x y = true \/ Qle_bool y x = true.
Proof.
  destruct (Qlt_le_dec x y) as [H|H].
  - left. apply Qle_bool_iff. now apply Qlt_le_weak.
  - right. now apply Qle_bool_iff.
Qed.

Lemma display_leb_total (a b : DisplayRow) :
  display_leb a b = true \/ display_leb b a = true.
Proof.
  unfold display_leb.
  destruct (ts_trichotomy (d_Expiry_Date a) (d_Expiry_Date b)) as [H|[H|H]].
  - left. now rewrite H.
  - rewrite H, ts_eqb_refl.
    destruct (Qle_bool_total (Strike a) (Strike b)) as [Hq|Hq]; rewrite Hq;
      [left | right]; apply orb_true_r.
  - right. now rewrite H.
Qed.

Lemma display_leb_le (a b : DisplayRow) : display_leb a b = true -> display_le a b.
Proof.
  unfold display_leb, display_le. intros H.
  apply orb_true_iff in H. destruct H as [H|H]; [now left|].
  apply andb_true_iff in H. destruct H as [He Hs].
  right. split; [now apply ts_eqb_eq | now apply Qle_bool_iff].
Qed.

Lemma Sorted_weaken {A : Type} (R R' : A -> A -> Prop) (l : list A) :
  (forall a b, R a b -> R' a b) -> Sorted R l -> Sorted R' l.
Proof.
  intros HR Hs. induction Hs as [|x l Hs IH Hh]; constructor; auto.
  destruct Hh; constructor; auto.
Qed.

Lemma project_unproject (r : DisplayRow) : project (unproject r) = r.
Proof. now destruct r. Qed.

Lemma map_project_unproject (l : list DisplayRow) : map project (map unproject l) = l.
Proof.
  induction l as [|r l IH]; simpl; [reflexivity|].
  now rewrite project_unproject, IH.
Qed.

Lemma display_get_columns (c : string) (r : DisplayRow) :
  display_get c r <> None <-> In c display_columns.
Proof.
  unfold display_get, display_columns. split.
  - intros H.
    repeat match type of H with
           | context [String.eqb c ?s] =>
               let E := fresh "E" in
               destruct (String.eqb c s) eqn:E;
               [apply String.eqb_eq in E; subst c; simpl; tauto|]
           end.
    congruence.
  - intros H. simpl in H.
    repeat (destruct H as [<-|H]; [simpl; discriminate|]).
    contradiction.
Qed.

Lemma project_copies (c : string) (r : ChainRow) :
  In c display_columns ->
  display_get c (project r) = chain_get (source_of rename_columns c) r.
Proof.
  intros H. unfold display_columns in H. simpl in H.
  repeat (destruct H as [<-|H]; [reflexivity|]).
  contradiction.
Qed.

(** C7. The projected table has the ten columns expiry, call price change,
    call last price, call OI change, call OI, strike, put OI, put OI
    change, put last price and put price change, in this order, each
    holding the value the normalised row holds under the label before the
    renaming; its rows are those of the input, sorted ascending by
    (expiry, strike); and projecting the output again, read back under the
    labels of the normalised table, gives the same rows in the same order. *)
Theorem prepare_display_reshape (df : list ChainRow) :
  map (source_of rename_columns) display_columns
  = [ "Expiry_Date"; "CALLS_Net_Chng"; "CALLS_LTP"; "CALLS_Chng_in_OI"; "CALLS_OI";
      "Strike_Price"; "PUTS_OI"; "PUTS_Chng_in_OI"; "PUTS_LTP"; "PUTS_Net_Chng" ]
  /\ map (renamed rename_columns)
       [ "Expiry_Date"; "CALLS_Net_Chng"; "CALLS_LTP"; "CALLS_Chng_in_OI"; "CALLS_OI";
         "Strike_Price"; "PUTS_OI"; "PUTS_Chng_in_OI"; "PUTS_LTP"; "PUTS_Net_Chng" ]
     = display_columns
  /\ (forall c r, display_get c r <> None <-> In c display_columns)
  /\ (forall c r, In c display_columns ->
                  display_get c (project r) = chain_get (source_of rename_columns c) r)
  /\ Permutation (map project df) (prepare_display df)
  /\ Sorted display_le (prepare_display df)
  /\ prepare_display (map unproject (prepare_display df)) = prepare_display df.
Proof.
  split; [reflexivity|].
  split; [reflexivity|].
  split; [apply display_get_columns|].
  split; [apply project_copies|].
  split; [apply sorted_perm|].
  split.
  - apply Sorted_weaken with (fun a b => display_leb a b = true).
    + apply display_leb_le.
    + apply (sorted_Sorted display_leb display_leb_total).
  - unfold prepare_display at 1. rewrite map_project_unproject.
    unfold prepare_display, sort_values.
    apply (sorted_idempotent display_leb display_leb_total).
Qed.

(** ** SignalDetector *)

Lemma detect_signals_run (format_number : Q -> string) (now : string)
  (storage : Storage) (df : list DisplayRow) (w : World) :
  detect_signals format_number now storage df w =
  let sigs := signals_df w ++ emitted format_number now df in
  match storage with
  | Accepts =>
      (mkWorld (latest_snapshot w) sigs (expiry_list w) (latest_spot w)
         (last_poll_time w) (Some sigs) (SNAPSHOT_CSV w)
         (journal w ++ [WroteSignals sigs]), Ok tt)
  | Refuses e =>
      (mkWorld (latest_snapshot w) sigs (expiry_list w) (latest_spot w)
         (last_poll_time w) (SIGNALS_CSV w) (SNAPSHOT_CSV w) (journal w),
       Raise e)
  | Breaks e rows =>
      (mkWorld (latest_snapshot w) sigs (expiry_list w) (latest_spot w)
         (last_poll_time w) (Some (firstn rows sigs)) (SNAPSHOT_CSV w)
         (journal w), Raise e)
  end.
Proof.
  unfold detect_signals, emitted.
  destruct (call_drop df) as [|rc lc]; destruct (put_drop df) as [|rp lp];
    destruct storage; destruct w; simpl;
    unfold bind, ret, lift, append_signal, bind, get_signals_df, set_signals_df,
      signals_to_csv; simpl;
    rewrite ?app_nil_r, <- ?app_assoc; reflexivity.
Qed.

Lemma detect_signals_log (format_number : Q -> string) (now : string)
  (storage : Storage) (df : list DisplayRow) (w : World) :
  signals_df (fst (detect_signals format_number now storage df w))
  = signals_df w ++ emitted format_number now df.
Proof. rewrite detect_signals_run. now destruct storage. Qed.

Lemma filter_nil_Forall {A : Type} (p : A -> bool) (l : list A) :
  filter p l = [] -> Forall (fun x => p x = false) l.
Proof.
  induction l as [|x l IH]; simpl; intros H; [constructor|].
  destruct (p x) eqn:E; [discriminate|].
  constructor; auto.
Qed.

Lemma filter_head_first {A : Type} (p : A -> bool) (l : list A) (r : A) (rest : list A) :
  filter p l = r :: rest ->
  exists before after,
    l = before ++ r :: after /\ Forall (fun x => p x = false) before /\ p r = true.
Proof.
  induction l as [|x l IH]; simpl; intros H; [discriminate|].
  destruct (p x) eqn:E.
  - inversion H; subst. exists [], l. repeat split; auto.
  - destruct (IH H) as [before [after [El [Hb Hr]]]].
    exists (x :: before), after. subst l. repeat split; auto.
Qed.

Lemma breach_test (x : Q) : Qle_bool x (- OI_THRESHOLD) = true <-> breaches x.
Proof. apply Qle_bool_iff. Qed.

Lemma not_breach_test (side : DisplayRow -> Q) (l : list DisplayRow) :
  Forall (fun x => Qle_bool (side x) (- OI_THRESHOLD) = false) l <-> no_breach side l.
Proof.
  unfold no_breach. rewrite !Forall_forall. split; intros H x Hx.
  - intros Hb. apply breach_test in Hb. rewrite (H x Hx) in Hb. discriminate.
  - destruct (Qle_bool (side x) (- OI_THRESHOLD)) eqn:E; [|reflexivity].
    exfalso. apply (H x Hx). now apply breach_test.
Qed.

Lemma no_breach_filter (side : DisplayRow -> Q) (df : list DisplayRow) :
  no_breach side df ->
  filter (fun r => Qle_bool (side r) (- OI_THRESHOLD)) df = [].
Proof.
  intros H. apply not_breach_test in H.
  induction H as [|x l Hx _ IH]; simpl; [reflexivity|].
  now rewrite Hx.
Qed.

Lemma breach_filter (side : DisplayRow -> Q) (df : list DisplayRow) :
  Exists (fun x => breaches (side x)) df ->
  exists r rest,
    filter (fun r => Qle_bool (side r) (- OI_THRESHOLD)) df = r :: rest
    /\ first_breach side df r.
Proof.
  intros H.
  destruct (filter (fun r => Qle_bool (side r) (- OI_THRESHOLD)) df) as [|r rest] eqn:E.
  - exfalso. apply filter_nil_Forall in E. apply not_breach_test in E.
    apply Exists_exists in H. destruct H as [x [Hx Hb]].
    unfold no_breach in E. rewrite Forall_forall in E. now apply (E x).
  - exists r, rest. split; [reflexivity|].
    apply filter_head_first in E. destruct E as [before [after [El [Hb Hr]]]].
    exists before, after. split; [exact El|]. split.
    + now apply not_breach_test.
    + now apply breach_test.
Qed.

(** C1. One call of the detector appends to the signal log the call
    signals followed by the put signals, where: if some row has a call OI
    change at or below -500000, the call signals are the single signal
    built from the first such row in table order, with strike field
    strike + 200 and label BUY CE followed by strike + 200, and otherwise
    there is none; the same for puts with the label BUY PE; so at most one
    signal per side is appended. With no breach on either side the log is
    unchanged, and so are the rows of its file when the file agreed with
    the log and the write is not cut short; a write that is cut short
    leaves in the file the rows of the log it had written. *)
Theorem detect_signals_emits (format_number : Q -> string) (now : string)
  (storage : Storage) (df : list DisplayRow) (w : World) :
  let w' := fst (detect_signals format_number now storage df w) in
  exists calls puts,
    signals_df w' = signals_df w ++ calls ++ puts
    /\ (Exists (fun x => breaches (CE_dOI x)) df ->
        exists r, first_breach CE_dOI df r
          /\ calls = [ {| sig_Timestamp := now;
                          sig_Signal := String.append "BUY CE " (format_number (Strike r + 200));
                          sig_Strike := Strike r + 200;
                          sig_Reason := "CALL OI ↓ 500000" |} ])
    /\ (no_breach CE_dOI df -> calls = [])
    /\ (Exists (fun x => breaches (PE_dOI x)) df ->
        exists r, first_breach PE_dOI df r
          /\ puts = [ {| sig_Timestamp := now;
                         sig_Signal := String.append "BUY PE " (format_number (Strike r + 200));
                         sig_Strike := Strike r + 200;
                         sig_Reason := "PUT OI ↓ 500000" |} ])
    /\ (no_breach PE_dOI df -> puts = [])
    /\ (List.length calls <= 1 /\ List.length puts <= 1)%nat
    /\ (no_breach CE_dOI df -> no_breach PE_dOI df ->
        signals_df w' = signals_df w
        /\ (file_rows (SIGNALS_CSV w) = signals_df w ->
            (unbroken storage ->
             file_rows (SIGNALS_CSV w') = file_rows (SIGNALS_CSV w))
            /\ (forall e rows, storage = Breaks e rows ->
                  file_rows (SIGNALS_CSV w') = firstn rows (signals_df w)))).
Proof.
  intros w'. subst w'.
  assert (Hrun := detect_signals_run format_number now storage df w).
  assert (Hlog := detect_signals_log format_number now storage df w).
  cbv zeta in Hrun. rewrite Hlog. unfold emitted in Hlog |- *.
  exists (match call_drop df with
          | [] => []
          | r :: _ => [call_signal format_number now (Strike r + STRIKE_OFFSET)]
          end),
         (match put_drop df with
          | [] => []
          | r :: _ => [put_signal format_number now (Strike r + STRIKE_OFFSET)]
          end).
  split; [reflexivity|].
  split.
  { intros H. destruct (breach_filter CE_dOI df H) as [r [rest [E Hf]]].
    exists r. split; [exact Hf|]. unfold call_drop. now rewrite E. }
  split.
  { intros H. unfold call_drop. now rewrite (no_breach_filter CE_dOI). }
  split.
  { intros H. destruct (breach_filter PE_dOI df H) as [r [rest [E Hf]]].
    exists r. split; [exact Hf|]. unfold put_drop. now rewrite E. }
  split.
  { intros H. unfold put_drop. now rewrite (no_breach_filter PE_dOI). }
  split.
  { split; [destruct (call_drop df) | destruct (put_drop df)]; simpl; lia. }
  intros Hc Hp.
  assert (Hnone : emitted format_number now df = []).
  { unfold emitted, call_drop, put_drop.
    now rewrite (no_breach_filter CE_dOI df Hc), (no_breach_filter PE_dOI df Hp). }
  unfold call_drop, put_drop.
  rewrite (no_breach_filter CE_dOI df Hc), (no_breach_filter PE_dOI df Hp).
  simpl. rewrite app_nil_r. split; [reflexivity|].
  intros Hsync. rewrite Hrun, Hnone, app_nil_r. split.
  - intros Hu. destruct storage; simpl in *; [exact (eq_sym Hsync) | reflexivity | contradiction].
  - intros e rows ->. reflexivity.
Qed.

(** ** The poll pass *)

Lemma get_nearest_expiries_total (df : list ChainRow) :
  exists l, get_nearest_expiries df = Ok l.
Proof.
  pose proof (get_nearest_expiries_cases df _ (unique_distinct df)) as H.
  destruct (unique (map Expiry_Date df)) as [|d [|d2 rest]].
  - now exists [].
  - now exists [d].
  - destruct H as [lo [hi [_ [_ [_ [_ H]]]]]]. now exists [lo; hi].
Qed.

Section PassFacts.

Variable to_numeric : Cell -> option Q.
Variable to_datetime : Cell -> option Timestamp.
Variable format_number : Q -> string.

Lemma poll_once_run (env : Env) (w : World) (raw : list RawRow)
  (expiries : list Timestamp) :
  chain env = Table raw -> raw <> [] ->
  let spot := get_nifty_spot (spot_response env) in
  let windowed := filter_atm_range (process_option_chain to_numeric to_datetime raw) spot in
  get_nearest_expiries windowed = Ok expiries ->
  poll_once to_numeric to_datetime format_number env w
  = pass_outcome format_number env w expiries
      (prepare_display (filter (isin expiries) windowed)).
Proof.
  intros Hc Hne spot windowed Hexp.
  unfold poll_once, pass_outcome. rewrite Hc.
  destruct raw as [|r0 raw0]; [congruence|].
  change (empty (r0 :: raw0)) with false.
  cbv beta iota zeta delta
    [bind set_latest_spot get_latest_spot lift set_expiry_list
     set_latest_snapshot set_last_poll_time snapshot_to_csv ret].
  cbn [latest_spot]. fold spot. fold windowed. rewrite Hexp.
  rewrite detect_signals_run. cbv zeta. cbn [signals_df].
  destruct (signals_storage env); [|reflexivity|reflexivity].
  destruct (snapshot_storage env); reflexivity.
Qed.

End PassFacts.

Lemma pass_outcome_memory (format_number : Q -> string) (env : Env) (w : World)
  (l : list Timestamp) (df : list DisplayRow) :
  latest_snapshot (fst (pass_outcome format_number env w l df)) = df
  /\ expiry_list (fst (pass_outcome format_number env w l df)) = l
  /\ latest_spot (fst (pass_outcome format_number env w l df))
     = get_nifty_spot (spot_response env)
  /\ signals_df (fst (pass_outcome format_number env w l df))
     = signals_df w ++ emitted format_number (now_signals env) df.
Proof.
  unfold pass_outcome.
  destruct (signals_storage env); [destruct (snapshot_storage env)| |]; simpl; auto.
Qed.

Section PassTheorems.

Variable to_numeric : Cell -> option Q.
Variable to_datetime : Cell -> option Timestamp.
Variable format_number : Q -> string.

(** C4. When the fetch yields something that is not a table, or an empty
    table, the pass raises and leaves the whole state as it was: the
    snapshot and the signal log, in memory and on disk, the spot, the
    expiry set and the time of the last poll. *)
Theorem poll_once_empty_chain (env : Env) (w : World) :
  chain env = NotATable \/ chain env = Table [] ->
  poll_once to_numeric to_datetime format_number env w
  = (w, Raise (Exception "Empty option chain")).
Proof.
  intros [H|H]; unfold poll_once; rewrite H; reflexivity.
Qed.

(** C6, as amended. The expiry set a pass selects is the selector applied
    to the normalised chain after the strike window has been applied to
    it (the whole normalised chain when the spot is not positive); it does
    not depend on the state the pass starts from. *)
Theorem poll_once_expiries (env : Env) (w : World) (raw : list RawRow) :
  chain env = Table raw -> raw <> [] ->
  let spot := get_nifty_spot (spot_response env) in
  let normalised := process_option_chain to_numeric to_datetime raw in
  let w' := fst (poll_once to_numeric to_datetime format_number env w) in
  get_nearest_expiries (filter_atm_range normalised spot) = Ok (expiry_list w')
  /\ (spot <= 0 -> get_nearest_expiries normalised = Ok (expiry_list w'))
  /\ (forall w0,
        expiry_list (fst (poll_once to_numeric to_datetime format_number env w0))
        = expiry_list w').
Proof.
  intros Hc Hne spot normalised w'.
  destruct (get_nearest_expiries_total (filter_atm_range normalised spot)) as [l Hl].
  assert (Hw : forall w0,
             expiry_list (fst (poll_once to_numeric to_datetime format_number env w0)) = l).
  { intros w0. rewrite (poll_once_run _ _ _ env w0 raw l Hc Hne Hl).
    apply pass_outcome_memory. }
  subst w'. rewrite (Hw w). split; [exact Hl|]. split.
  - intros Hs. rewrite <- Hl. f_equal. symmetry.
    apply filter_atm_range_open. now left.
  - intros w0. apply Hw.
Qed.


End PassTheorems.

Lemma poll_once_empty_chain_witness :
  poll_once example_to_numeric example_to_datetime example_format
    no_table_env later_world
  = (later_world, Raise (Exception "Empty option chain")).
Proof.
  apply poll_once_empty_chain. left. reflexivity.
Defined.

(** C6, as stated, fails: the far expiry of this chain has no strike in
    the window, so the pass selects the near expiry alone, while the
    selector on the whole normalised chain returns both. *)
Lemma expiries_of_full_chain_counterexample :
  get_nearest_expiries
    (process_option_chain example_to_numeric example_to_datetime far_month_raw)
  = Ok [jan02; feb27]
  /\ expiry_list
       (fst (poll_once example_to_numeric example_to_datetime example_format
               far_month_env fresh_world))
     = [jan02]
  /\ get_nearest_expiries
       (process_option_chain example_to_numeric example_to_datetime far_month_raw)
     <> Ok (expiry_list
              (fst (poll_once example_to_numeric example_to_datetime example_format
                      far_month_env fresh_world))).
Proof.
  split; [vm_compute; reflexivity|].
  split; [vm_compute; reflexivity|].
  vm_compute. discriminate.
Qed.

Lemma poll_once_expiries_witness :
  get_nearest_expiries
    (filter_atm_range
       (process_option_chain example_to_numeric example_to_datetime far_month_raw)
       (get_nifty_spot (spot_response far_month_env)))
  = Ok (expiry_list
          (fst (poll_once example_to_numeric example_to_datetime example_format
                  far_month_env later_world))).
Proof.
  apply (poll_once_expiries example_to_numeric example_to_datetime example_format
           far_month_env later_world far_month_raw).
  - reflexivity.
  - discriminate.
Defined.



(** The failing pass of the worked input: the signal BUY CE 24500.0 is in
    the log file and the snapshot file holds the earlier table. *)
Example breach_pass_outcome :
  let run := poll_once example_to_numeric example_to_datetime example_format
               breach_env later_world in
  snd run = Raise OSError
  /\ SIGNALS_CSV (fst run)
     = Some [ {| sig_Timestamp := "2025-01-01 09:30:00";
                 sig_Signal := "BUY CE 24500.0";
                 sig_Strike := 24500;
                 sig_Reason := "CALL OI ↓ 500000" |} ]
  /\ SNAPSHOT_CSV (fst run) = Some earlier_snapshot
  /\ List.length (latest_snapshot (fst run)) = 2%nat.
Proof. vm_compute. repeat split; reflexivity. Qed.

(** * Further properties *)

(** ** The strike window and the spot *)

Lemma window_center_spot (spot : Q) :
  window_center spot <= spot /\ spot < window_center spot + 50.
Proof.
  unfold window_center.
  pose proof (Qfloor_le (spot / 50)) as Hlo.
  pose proof (Qlt_floor (spot / 50)) as Hhi.
  rewrite inject_Z_plus in Hhi.
  assert (E : spot / 50 * 50 == spot) by (field; discriminate).
  split.
  - rewrite <- E at 2. apply Qmult_le_compat_r; [exact Hlo | discriminate].
  - apply (Qmult_lt_compat_r _ _ 50) in Hhi; [|reflexivity].
    rewrite E in Hhi. eapply Qlt_le_trans; [exact Hhi|].
    change (inject_Z 1) with 1. lra.
Qed.

Lemma filter_twice {A : Type} (p : A -> bool) (l : list A) :
  filter p (filter p l) = filter p l.
Proof.
  induction l as [|x l IH]; simpl; [reflexivity|].
  destruct (p x) eqn:E; simpl; [rewrite E, IH|]; auto.
Qed.

(** X1. Windowing a table that is already windowed at the same spot changes
    nothing. *)
Theorem filter_atm_range_idempotent (df : list ChainRow) (spot : Q) :
  filter_atm_range (filter_atm_range df spot) spot = filter_atm_range df spot.
Proof.
  unfold filter_atm_range.
  destruct (Qle_bool spot 0); simpl; [reflexivity|].
  destruct (empty df) eqn:Ed; [now rewrite Ed|].
  destruct (empty (filter (in_window spot) df)); [reflexivity|].
  apply filter_twice.
Qed.

(** X2. With a positive spot the window is not centred on the spot but on
    the 50-point step below it: every row whose strike lies from spot - 250
    to spot + 200 is kept, and every row kept has its strike above
    spot - 300 and at most spot + 250. *)
Theorem filter_atm_range_around_spot (df : list ChainRow) (spot : Q) (r : ChainRow) :
  0 < spot -> In r df ->
  (spot - 250 <= Strike_Price r /\ Strike_Price r <= spot + 200 ->
   In r (filter_atm_range df spot))
  /\ (In r (filter_atm_range df spot) ->
      spot - 300 < Strike_Price r /\ Strike_Price r <= spot + 250).
Proof.
  intros Hs Hin.
  assert (Hne : df <> []) by (intros ->; exact Hin).
  rewrite (filter_atm_range_filters df spot Hs Hne).
  destruct (window_center_spot spot) as [Hlo Hhi].
  rewrite filter_In, in_window_iff. unfold in_strike_window.
  split.
  - intros [H1 H2]. split; [exact Hin|]. split; lra.
  - intros [_ [H1 H2]]. split; lra.
Qed.

Lemma filter_atm_range_around_spot_witness :
  In (row_on jan02 24500)
    (filter_atm_range [row_on jan02 24000; row_on jan02 24500] 24310)
  /\ 24310 - 300 < Strike_Price (row_on jan02 24500)
  /\ Strike_Price (row_on jan02 24500) <= 24310 + 250.
Proof.
  destruct (filter_atm_range_around_spot
              [row_on jan02 24000; row_on jan02 24500] 24310 (row_on jan02 24500))
    as [Hkeep Hkept].
  - reflexivity.
  - simpl. auto.
  - assert (Hin : In (row_on jan02 24500)
                    (filter_atm_range [row_on jan02 24000; row_on jan02 24500] 24310)).
    { apply Hkeep. split; unfold Qle; simpl; lia. }
    split; [exact Hin | exact (Hkept Hin)].
Defined.

(** ** The expiry selector *)

Lemma selected_dates_present (df : list ChainRow) (l : list Timestamp) :
  get_nearest_expiries df = Ok l ->
  forall d, In d l -> In d (map Expiry_Date df).
Proof.
  intros Hl.
  pose proof (get_nearest_expiries_cases df _ (unique_distinct df)) as H.
  pose proof (unique_In (map Expiry_Date df)) as Hin.
  destruct (unique (map Expiry_Date df)) as [|d0 [|d2 rest]].
  - rewrite H in Hl. inversion Hl; subst. intros d [].
  - rewrite H in Hl. inversion Hl; subst.
    intros d [<-|[]]. apply Hin. now left.
  - destruct H as [lo [hi [[Hlo _] [[Hhi _] [_ [_ H]]]]]].
    rewrite H in Hl. inversion Hl; subst.
    intros d [<-|[<-|[]]]; now apply Hin.
Qed.

(** X3. The selector never raises, whatever the table: it returns at most
    two dates, in strictly increasing order, each of them an expiry of some
    row, and it returns none only for the empty table. *)
Theorem get_nearest_expiries_shape (df : list ChainRow) :
  exists l,
    get_nearest_expiries df = Ok l
    /\ (List.length l <= 2)%nat
    /\ StronglySorted ts_lt l
    /\ (forall d, In d l -> In d (map Expiry_Date df))
    /\ (l = [] <-> df = []).
Proof.
  pose proof (get_nearest_expiries_cases df _ (unique_distinct df)) as H.
  pose proof (unique_In (map Expiry_Date df)) as Hin.
  destruct (unique (map Expiry_Date df)) as [|d [|d2 rest]].
  - exists []. split; [exact H|]. split; [simpl; lia|]. split; [constructor|].
    split; [intros d []|]. split; [intros _|reflexivity].
    destruct df as [|r df]; [reflexivity|].
    exfalso. apply (Hin (Expiry_Date r)). now left.
  - exists [d]. split; [exact H|]. split; [simpl; lia|].
    split; [repeat constructor|].
    split; [intros x [<-|[]]; apply Hin; now left|].
    split; [discriminate|]. intros ->. exfalso. apply (Hin d). now left.
  - destruct H as [lo [hi [[Hlo _] [[Hhi _] [Hlt [_ H]]]]]].
    exists [lo; hi]. split; [exact H|]. split; [simpl; lia|].
    split; [repeat constructor; exact Hlt|].
    split; [intros x [<-|[<-|[]]]; now apply Hin|].
    split; [discriminate|]. intros ->. exfalso. now apply (Hin lo).
Qed.

(** X4. The selection depends on the set of expiry dates alone: two tables
    with the same dates, in whatever rows, order and number, get the same
    selection. *)
Theorem get_nearest_expiries_same_dates (df1 df2 : list ChainRow) :
  (forall d, In d (map Expiry_Date df1) <-> In d (map Expiry_Date df2)) ->
  get_nearest_expiries df1 = get_nearest_expiries df2.
Proof.
  intros Hsame.
  pose proof (unique_distinct df1) as H1.
  assert (H2 : distinct_expiries df2 (unique (map Expiry_Date df1))).
  { destruct H1 as [Hnd Hin]. split; [exact Hnd|].
    intros x. now rewrite Hin. }
  apply get_nearest_expiries_cases in H1.
  apply get_nearest_expiries_cases in H2.
  destruct (unique (map Expiry_Date df1)) as [|d [|d2 rest]]; try congruence.
  destruct H1 as [lo1 [hi1 [Hlo1 [Hhi1 [_ [_ E1]]]]]].
  destruct H2 as [lo2 [hi2 [Hlo2 [Hhi2 [_ [_ E2]]]]]].
  rewrite E1, E2.
  rewrite (is_min_unique _ _ _ Hlo1 Hlo2), (is_max_unique _ _ _ Hhi1 Hhi2).
  reflexivity.
Qed.

Lemma get_nearest_expiries_same_dates_witness :
  get_nearest_expiries [row_on jan02 24300; row_on feb27 24300; row_on jan09 24300]
  = get_nearest_expiries
      [row_on jan09 24000; row_on jan09 24050; row_on feb27 24300;
       row_on jan02 24300; row_on feb27 24350].
Proof.
  apply get_nearest_expiries_same_dates.
  intros d. simpl. intuition.
Defined.

Lemma key_eqb_eq (a b : Z * Z) : key_eqb a b = true <-> a = b.
Proof.
  destruct a as [a1 a2], b as [b1 b2]. unfold key_eqb; simpl.
  rewrite andb_true_iff, !Z.eqb_eq. split.
  - intros [-> ->]. reflexivity.
  - intros E. inversion E. auto.
Qed.

Lemma has_key_In (m : Z * Z) (g : groups) :
  has_key m g = true <-> In m (map fst g).
Proof.
  induction g as [|[k v] g IH]; simpl; [split; [discriminate | tauto]|].
  rewrite orb_true_iff, IH, key_eqb_eq. intuition congruence.
Qed.

Lemma append_to_keys (m : Z * Z) (d : Timestamp) (g : groups) :
  map fst (append_to m d g) = map fst g.
Proof.
  induction g as [|[k v] g IH]; simpl; [reflexivity|].
  destruct (key_eqb m k); simpl; [reflexivity|]. now rewrite IH.
Qed.

Lemma month_group_snoc (l : list Timestamp) (d : Timestamp) (k : Z * Z) :
  month_group (l ++ [d]) k
  = month_group l k ++ (if key_eqb (month_key d) k then [d] else []).
Proof. unfold month_group. rewrite filter_app. reflexivity. Qed.

Lemma entry_ok_other (l : list Timestamp) (d : Timestamp) (g : groups) :
  Forall (entry_ok l) g -> ~ In (month_key d) (map fst g) ->
  Forall (entry_ok (l ++ [d])) g.
Proof.
  intros Hg Hn. rewrite Forall_forall in *. intros [k v] Hkv.
  destruct (Hg _ Hkv) as [Hv Hne]. simpl in *.
  split; [|exact Hne]. simpl. rewrite month_group_snoc.
  destruct (key_eqb (month_key d) k) eqn:E.
  - apply key_eqb_eq in E. exfalso. apply Hn. rewrite E.
    apply in_map_iff. exists (k, v). auto.
  - now rewrite app_nil_r.
Qed.

Lemma append_to_ok (l : list Timestamp) (d : Timestamp) (g : groups) :
  NoDup (map fst g) -> Forall (entry_ok l) g -> In (month_key d) (map fst g) ->
  Forall (entry_ok (l ++ [d])) (append_to (month_key d) d g).
Proof.
  induction g as [|[k v] g IH]; simpl; intros Hnd Hok Hin; [contradiction|].
  inversion Hnd as [|? ? Hk Hnd']; subst.
  inversion Hok as [|? ? [Hv Hne] Hok']; subst. simpl in *.
  destruct (key_eqb (month_key d) k) eqn:E.
  - constructor.
    + split; simpl.
      * rewrite month_group_snoc, E. now rewrite <- Hv.
      * intros F. now apply app_eq_nil in F as [_ F].
    + apply entry_ok_other; [exact Hok'|].
      apply key_eqb_eq in E. now rewrite E.
  - constructor.
    + split; simpl; [|exact Hne].
      rewrite month_group_snoc, E. now rewrite app_nil_r.
    + apply IH; auto. destruct Hin as [Hin|Hin]; [|exact Hin].
      exfalso. subst k. now rewrite key_eqb_refl in E.
Qed.

Lemma month_group_none (l : list Timestamp) (m : Z * Z) (keys : list (Z * Z)) :
  Forall (fun x => In (month_key x) keys) l -> ~ In m keys -> month_group l m = [].
Proof.
  intros Hl Hn. unfold month_group.
  induction Hl as [|x l Hx _ IH]; simpl; [reflexivity|].
  destruct (key_eqb (month_key x) m) eqn:E; [|exact IH].
  apply key_eqb_eq in E. exfalso. apply Hn. now rewrite <- E.
Qed.

Lemma group_step_partition (g : groups) (l : list Timestamp) (d : Timestamp) :
  NoDup (map fst g) /\ Forall (entry_ok l) g
  /\ Forall (fun x => In (month_key x) (map fst g)) l ->
  NoDup (map fst (group_step g d)) /\ Forall (entry_ok (l ++ [d])) (group_step g d)
  /\ Forall (fun x => In (month_key x) (map fst (group_step g d))) (l ++ [d]).
Proof.
  intros [Hnd [Hok Hcov]]. unfold group_step.
  destruct (has_key (month_key d) g) eqn:E.
  - apply has_key_In in E. rewrite append_to_keys.
    split; [exact Hnd|]. split; [now apply append_to_ok|].
    apply Forall_app. split; [exact Hcov|]. now constructor.
  - assert (Hn : ~ In (month_key d) (map fst g)).
    { intros F. apply has_key_In in F. congruence. }
    rewrite append_to_miss by exact E. simpl. rewrite key_eqb_refl. simpl.
    rewrite map_app. simpl. split; [|split].
    + apply (Permutation_NoDup (Permutation_cons_append _ _)).
      now constructor.
    + apply Forall_app. split; [now apply entry_ok_other|].
      constructor; [|constructor]. split; simpl; [|discriminate].
      rewrite month_group_snoc, key_eqb_refl.
      now rewrite (month_group_none l _ _ Hcov Hn).
    + apply Forall_app. split.
      * apply (Forall_impl _ (fun x H => in_or_app _ _ _ (or_introl H)) Hcov).
      * constructor; [|constructor]. apply in_or_app. right. now left.
Qed.

Lemma fold_group_step_partition (rest : list Timestamp) :
  forall (g : groups) (l : list Timestamp),
    NoDup (map fst g) /\ Forall (entry_ok l) g
    /\ Forall (fun x => In (month_key x) (map fst g)) l ->
    NoDup (map fst (fold_left group_step rest g))
    /\ Forall (entry_ok (l ++ rest)) (fold_left group_step rest g)
    /\ Forall (fun x => In (month_key x) (map fst (fold_left group_step rest g)))
         (l ++ rest).
Proof.
  induction rest as [|d rest IH]; simpl; intros g l H.
  - now rewrite app_nil_r.
  - apply group_step_partition with (d := d) in H.
    apply IH in H. now rewrite <- app_assoc in H.
Qed.

(** X5. The dictionary the selector builds splits the dates by calendar
    month: its keys are pairwise distinct, each entry holds exactly the
    dates of the list with that (year, month), in their order and at least
    one, and every date of the list is in the entry of its month. *)
Theorem month_groups_partition (l : list Timestamp) :
  NoDup (map fst (month_groups l))
  /\ (forall k v, In (k, v) (month_groups l) -> v = month_group l k /\ v <> [])
  /\ (forall d, In d l ->
        exists v, In (month_key d, v) (month_groups l) /\ In d v).
Proof.
  destruct (fold_group_step_partition l [] []) as [Hnd [Hok Hcov]].
  { split; [constructor|]. split; constructor. }
  simpl in Hok, Hcov. fold (month_groups l) in Hnd, Hok, Hcov.
  split; [exact Hnd|]. split.
  - intros k v Hkv. rewrite Forall_forall in Hok. apply (Hok _ Hkv).
  - intros d Hd. rewrite Forall_forall in Hcov, Hok.
    pose proof (Hcov d Hd) as Hk. apply in_map_iff in Hk.
    destruct Hk as [[k v] [Ek Hkv]]. simpl in Ek. subst k.
    exists v. split; [exact Hkv|].
    destruct (Hok _ Hkv) as [Hv _]. simpl in Hv. rewrite Hv.
    apply filter_In. split; [exact Hd | apply key_eqb_refl].
Qed.

(** ** The projected table and the detector *)

Lemma ts_lt_trans (a b c : Timestamp) : ts_lt a b -> ts_lt b c -> ts_lt a c.
Proof. destruct a, b, c; intros H1 H2; ts_order. Qed.

Lemma display_le_refl (a : DisplayRow) : display_le a a.
Proof. right. split; [reflexivity | apply Qle_refl]. Qed.

Lemma display_le_trans (a b c : DisplayRow) :
  display_le a b -> display_le b c -> display_le a c.
Proof.
  unfold display_le. intros [H1|[E1 H1]] [H2|[E2 H2]].
  - left. eapply ts_lt_trans; eauto.
  - left. now rewrite <- E2.
  - left. now rewrite E1.
  - right. split; [congruence | eapply Qle_trans; eauto].
Qed.

Lemma display_le_leb (a b : DisplayRow) : display_le a b -> display_leb a b = true.
Proof.
  unfold display_le, display_leb. intros [H|[E H]].
  - unfold ts_lt in H. now rewrite H.
  - rewrite E, ts_eqb_refl. apply Qle_bool_iff in H. rewrite H.
    apply orb_true_r.
Qed.

Lemma prepare_display_StronglySorted (df : list ChainRow) :
  StronglySorted display_le (prepare_display df).
Proof.
  apply Sorted_StronglySorted.
  - intros a b c. apply display_le_trans.
  - apply Sorted_weaken with (fun a b => display_leb a b = true).
    + apply display_leb_le.
    + apply (sorted_Sorted display_leb display_leb_total).
Qed.

(** X6. A table whose rows already come in ascending (expiry, strike)
    order keeps its row order through the projection: ties are not
    reshuffled. *)
Theorem prepare_display_sorted_input (df : list ChainRow) :
  Sorted display_le (map project df) -> prepare_display df = map project df.
Proof.
  intros H. unfold prepare_display, sort_values.
  apply sorted_fixed.
  apply Sorted_weaken with display_le; [apply display_le_leb | exact H].
Qed.

Lemma prepare_display_sorted_input_witness :
  prepare_display
    [row_on jan02 24300; row_on jan02 24300; row_on jan02 24350; row_on feb27 24000]
  = map project
      [row_on jan02 24300; row_on jan02 24300; row_on jan02 24350; row_on feb27 24000].
Proof.
  apply prepare_display_sorted_input.
  apply Sorted_weaken with (fun a b => display_leb a b = true).
  - apply display_leb_le.
  - repeat constructor.
Defined.

Lemma StronglySorted_after {A : Type} (R : A -> A -> Prop) (l1 l2 : list A) (x : A) :
  StronglySorted R (l1 ++ x :: l2) -> Forall (R x) l2.
Proof.
  induction l1 as [|y l1 IH]; simpl; intros H; inversion H; subst; auto.
Qed.

Lemma first_breach_least (side : DisplayRow -> Q) (df : list DisplayRow) (r : DisplayRow) :
  StronglySorted display_le df -> first_breach side df r ->
  In r df /\ breaches (side r)
  /\ forall x, In x df -> breaches (side x) -> display_le r x.
Proof.
  intros Hs [before [after [E [Hb Hr]]]]. subst df.
  split; [apply in_or_app; right; now left|]. split; [exact Hr|].
  intros x Hx Hbx. apply in_app_or in Hx. destruct Hx as [Hx|[<-|Hx]].
  - exfalso. unfold no_breach in Hb. rewrite Forall_forall in Hb.
    now apply (Hb x).
  - apply display_le_refl.
  - apply StronglySorted_after in Hs. rewrite Forall_forall in Hs. now apply Hs.
Qed.

(** X7. On a projected table the detector takes, on each side, the
    breaching row that is least in (expiry, strike) order: the call signal
    (and likewise the put signal) is built from a breaching row that no
    other breaching row of the table precedes. *)
Theorem detect_signals_least_row (format_number : Q -> string) (now : string)
  (storage : Storage) (t : list ChainRow) (w : World) :
  let df := prepare_display t in
  let log := signals_df (fst (detect_signals format_number now storage df w)) in
  (Exists (fun x => breaches (CE_dOI x)) df ->
   exists r rest,
     In r df /\ breaches (CE_dOI r)
     /\ (forall x, In x df -> breaches (CE_dOI x) -> display_le r x)
     /\ log = signals_df w ++ call_signal format_number now (Strike r + 200) :: rest)
  /\ (Exists (fun x => breaches (PE_dOI x)) df ->
      exists r before,
        In r df /\ breaches (PE_dOI r)
        /\ (forall x, In x df -> breaches (PE_dOI x) -> display_le r x)
        /\ log = signals_df w ++ before ++ [put_signal format_number now (Strike r + 200)]).
Proof.
  intros df log. subst log. rewrite detect_signals_log.
  pose proof (prepare_display_StronglySorted t) as Hs. fold df in Hs.
  unfold emitted. split; intros H.
  - destruct (breach_filter CE_dOI df H) as [r [rest [E Hf]]].
    destruct (first_breach_least _ _ _ Hs Hf) as [Hin [Hb Hleast]].
    exists r. eexists. split; [exact Hin|]. split; [exact Hb|].
    split; [exact Hleast|]. unfold call_drop. rewrite E. reflexivity.
  - destruct (breach_filter PE_dOI df H) as [r [rest [E Hf]]].
    destruct (first_breach_least _ _ _ Hs Hf) as [Hin [Hb Hleast]].
    exists r. eexists. split; [exact Hin|]. split; [exact Hb|].
    split; [exact Hleast|]. unfold put_drop. rewrite E. reflexivity.
Qed.

(** ** The poll pass, outcome by outcome *)

Section PassOutcomes.

Variable to_numeric : Cell -> option Q.
Variable to_datetime : Cell -> option Timestamp.
Variable format_number : Q -> string.

Lemma nothing_fetched_run (env : Env) (w : World) :
  nothing_fetched env ->
  poll_once to_numeric to_datetime format_number env w
  = (w, Raise (Exception "Empty option chain")).
Proof. intros [H|H]; unfold poll_once; rewrite H; reflexivity. Qed.

Lemma fetch_raises_run (env : Env) (w : World) (e : exn) :
  chain env = FetchRaises e ->
  poll_once to_numeric to_datetime format_number env w = (w, Raise e).
Proof. intros H. unfold poll_once. rewrite H. reflexivity. Qed.

Lemma fetched_or_not (env : Env) :
  (exists e, chain env = FetchRaises e)
  \/ nothing_fetched env
  \/ exists raw, chain env = Table raw /\ raw <> [].
Proof.
  unfold nothing_fetched. destruct (chain env) as [e| |[|r raw]]; auto.
  - left. now exists e.
  - right. right. exists (r :: raw). split; [reflexivity | discriminate].
Qed.

(** Every pass is one of two: stopped before it assigns anything, by the
    fetch raising or by the empty-chain check, or run to its writes with
    the expiries selected from the windowed chain. *)
Lemma poll_once_cases (env : Env) (w : World) :
  (exists e,
     (chain env = FetchRaises e
      \/ (nothing_fetched env /\ e = Exception "Empty option chain"))
     /\ poll_once to_numeric to_datetime format_number env w = (w, Raise e))
  \/ (exists raw l,
        chain env = Table raw /\ raw <> []
        /\ get_nearest_expiries
             (filter_atm_range (process_option_chain to_numeric to_datetime raw)
                (get_nifty_spot (spot_response env))) = Ok l
        /\ poll_once to_numeric to_datetime format_number env w
           = pass_outcome format_number env w l
               (prepare_display
                  (filter (isin l)
                     (filter_atm_range
                        (process_option_chain to_numeric to_datetime raw)
                        (get_nifty_spot (spot_response env)))))).
Proof.
  destruct (fetched_or_not env) as [[e He]|[H|[raw [Hc Hne]]]].
  - left. exists e. split; [now left | now apply fetch_raises_run].
  - left. exists (Exception "Empty option chain").
    split; [now right | now apply nothing_fetched_run].
  - right.
    destruct (get_nearest_expiries_total
                (filter_atm_range (process_option_chain to_numeric to_datetime raw)
                   (get_nifty_spot (spot_response env)))) as [l Hl].
    exists raw, l. repeat split; auto.
    now rewrite (poll_once_run _ _ _ env w raw l Hc Hne Hl).
Qed.


(** X9. After a pass that returns, memory and disk agree: the snapshot file
    holds the table in [latest_snapshot], which is the table returned, the
    log file holds the whole of [signals_df], and the spot and the time of
    the last poll are those read in this pass. *)
Theorem poll_once_success (env : Env) (w w' : World) (df : list DisplayRow) :
  poll_once to_numeric to_datetime format_number env w = (w', Ok df) ->
  latest_snapshot w' = df
  /\ SNAPSHOT_CSV w' = Some df
  /\ SIGNALS_CSV w' = Some (signals_df w')
  /\ latest_spot w' = get_nifty_spot (spot_response env)
  /\ last_poll_time w' = Some (now_poll env).
Proof.
  intros H.
  destruct (poll_once_cases env w) as [[e [_ E]]|[raw [l [_ [_ [_ E]]]]]];
    rewrite E in H; [discriminate|].
  unfold pass_outcome in H.
  destruct (signals_storage env); [destruct (snapshot_storage env)| |];
    inversion H; subst; simpl; auto.
Qed.

End PassOutcomes.

Lemma poll_once_success_witness :
  SNAPSHOT_CSV
    (fst (poll_once example_to_numeric example_to_datetime example_format
            far_month_env later_world))
  = Some [mkDisplayRow jan02 0 0 0 0 24300 0 0 0 0]
  /\ SIGNALS_CSV
       (fst (poll_once example_to_numeric example_to_datetime example_format
               far_month_env later_world))
     = Some (signals_df
               (fst (poll_once example_to_numeric example_to_datetime example_format
                       far_month_env later_world))).
Proof.
  destruct (poll_once_success example_to_numeric example_to_datetime example_format
              far_month_env later_world
              (fst (poll_once example_to_numeric example_to_datetime example_format
                      far_month_env later_world))
              [mkDisplayRow jan02 0 0 0 0 24300 0 0 0 0])
    as [_ [Hsnap [Hsig _]]].
  - vm_compute. reflexivity.
  - split; [exact Hsnap | exact Hsig].
Defined.

(** ** What a pass leaves in memory *)

Lemma prepare_display_In (t : list ChainRow) (r : DisplayRow) :
  In r (prepare_display t) <-> exists c, In c t /\ r = project c.
Proof.
  pose proof (sorted_perm display_leb (map project t)) as Hp.
  fold (sort_values (map project t)) in Hp. fold (prepare_display t) in Hp.
  split.
  - intros H. apply (Permutation_in _ (Permutation_sym Hp)) in H.
    apply in_map_iff in H. destruct H as [c [E Hc]]. exists c. auto.
  - intros [c [Hc ->]]. apply (Permutation_in _ Hp). now apply in_map.
Qed.

Lemma isin_In (l : list Timestamp) (c : ChainRow) :
  isin l c = true <-> In (Expiry_Date c) l.
Proof.
  unfold isin. rewrite existsb_exists. split.
  - intros [x [Hx E]]. apply ts_eqb_eq in E. now rewrite E.
  - intros H. exists (Expiry_Date c). split; [exact H | apply ts_eqb_refl].
Qed.

Lemma filter_atm_range_In (df : list ChainRow) (spot : Q) (c : ChainRow) :
  In c (filter_atm_range df spot) ->
  In c df /\ (0 < spot -> in_strike_window spot c).
Proof.
  unfold filter_atm_range.
  destruct (Qle_bool spot 0) eqn:Es; simpl.
  - intros H. split; [exact H|]. intros Hs. apply Qle_bool_iff in Es.
    exfalso. now apply (Qlt_not_le 0 spot).
  - destruct (empty df) eqn:Ed.
    + destruct df; [contradiction | discriminate].
    + intros H. apply filter_In in H. destruct H as [H Hw].
      split; [exact H|]. intros _. now apply in_window_iff.
Qed.

Section PassState.

Variable to_numeric : Cell -> option Q.
Variable to_datetime : Cell -> option Timestamp.
Variable format_number : Q -> string.

(** X10. Whatever becomes of the writes, a pass over a non-empty fetched
    table leaves a snapshot and an expiry list that fit each other: every
    row of the snapshot is the projection of a normalised row and has one
    of the listed expiries, every listed expiry has a row in the snapshot,
    and with a positive spot every strike of the snapshot lies in the
    window. *)
Theorem poll_once_snapshot_rows (env : Env) (w : World) (raw : list RawRow) :
  chain env = Table raw -> raw <> [] ->
  let w' := fst (poll_once to_numeric to_datetime format_number env w) in
  let spot := get_nifty_spot (spot_response env) in
  (forall r, In r (latest_snapshot w') ->
     In (d_Expiry_Date r) (expiry_list w')
     /\ exists c, In c (process_option_chain to_numeric to_datetime raw)
                  /\ r = project c)
  /\ (forall d, In d (expiry_list w') ->
        exists r, In r (latest_snapshot w') /\ d_Expiry_Date r = d)
  /\ (0 < spot ->
      forall r, In r (latest_snapshot w') ->
        window_center spot - 250 <= Strike r
        /\ Strike r <= window_center spot + 250).
Proof.
  intros Hc Hne w' spot. subst w'.
  destruct (get_nearest_expiries_total
              (filter_atm_range (process_option_chain to_numeric to_datetime raw)
                 spot)) as [l Hl].
  rewrite (poll_once_run _ _ _ env w raw l Hc Hne Hl). fold spot.
  destruct (pass_outcome_memory format_number env w l
              (prepare_display
                 (filter (isin l)
                    (filter_atm_range
                       (process_option_chain to_numeric to_datetime raw) spot))))
    as [Hsnap [Hexp _]].
  rewrite Hsnap, Hexp.
  split; [|split].
  - intros r Hr. apply prepare_display_In in Hr. destruct Hr as [c [Hcin ->]].
    apply filter_In in Hcin. destruct Hcin as [Hcin Hisin].
    split; [now apply isin_In|].
    exists c. split; [|reflexivity]. now apply filter_atm_range_In in Hcin.
  - intros d Hd.
    pose proof (selected_dates_present _ _ Hl _ Hd) as Hd'.
    apply in_map_iff in Hd'.
    destruct Hd' as [c [Ec Hcin]].
    exists (project c). split; [|exact Ec].
    apply prepare_display_In. exists c. split; [|reflexivity].
    apply filter_In. split; [exact Hcin|]. apply isin_In. now rewrite Ec.
  - intros Hs r Hr. apply prepare_display_In in Hr. destruct Hr as [c [Hcin ->]].
    apply filter_In in Hcin. destruct Hcin as [Hcin _].
    apply filter_atm_range_In in Hcin. destruct Hcin as [_ Hw].
    exact (Hw Hs).
Qed.

End PassState.

Lemma poll_once_snapshot_rows_witness :
  exists r,
    In r (latest_snapshot
            (fst (poll_once example_to_numeric example_to_datetime example_format
                    breach_env later_world)))
    /\ d_Expiry_Date r = jan02.
Proof.
  destruct (poll_once_snapshot_rows example_to_numeric example_to_datetime
              example_format breach_env later_world breach_raw)
    as [_ [Hlisted _]].
  - reflexivity.
  - discriminate.
  - apply Hlisted. vm_compute. auto.
Defined.

(** ** Degraded passes *)

Lemma filter_atm_range_nil (spot : Q) : filter_atm_range [] spot = [].
Proof. unfold filter_atm_range. now destruct (Qle_bool spot 0). Qed.

Lemma filter_none {A : Type} (p : A -> bool) (l : list A) :
  Forall (fun x => p x = false) l -> filter p l = [].
Proof.
  intros H. induction H as [|x l Hx _ IH]; simpl; [reflexivity|].
  now rewrite Hx.
Qed.

Lemma window_none (df : list ChainRow) (spot : Q) :
  0 < spot -> Forall (fun c => ~ in_strike_window spot c) df ->
  filter_atm_range df spot = [].
Proof.
  intros Hs H. destruct df as [|c df]; [apply filter_atm_range_nil|].
  rewrite filter_atm_range_filters by (auto; discriminate).
  apply filter_none. apply (Forall_impl _ (P := fun c => ~ in_strike_window spot c)).
  - intros x Hx. destruct (in_window spot x) eqn:E; [|reflexivity].
    exfalso. apply Hx. now apply in_window_iff.
  - exact H.
Qed.

Section DegradedPasses.

Variable to_numeric : Cell -> option Q.
Variable to_datetime : Cell -> option Timestamp.
Variable format_number : Q -> string.

Lemma process_none (raw : list RawRow) :
  Forall (fun r => to_datetime (raw_Expiry_Date r) = None) raw ->
  process_option_chain to_numeric to_datetime raw = [].
Proof.
  intros H. induction H as [|r raw Hr _ IH]; simpl; [reflexivity|].
  now rewrite Hr.
Qed.

(** X11. When the spot request fails the pass goes on with spot 0 and no
    window: the expiries are selected from the whole normalised chain, and
    every normalised row with a selected expiry is in the snapshot,
    whatever its strike. *)
Theorem poll_once_without_spot (env : Env) (w : World) (raw : list RawRow) :
  chain env = Table raw -> raw <> [] -> spot_response env = None ->
  let w' := fst (poll_once to_numeric to_datetime format_number env w) in
  let normalised := process_option_chain to_numeric to_datetime raw in
  latest_spot w' = 0
  /\ get_nearest_expiries normalised = Ok (expiry_list w')
  /\ latest_snapshot w' = prepare_display (filter (isin (expiry_list w')) normalised)
  /\ (forall c, In c normalised -> In (Expiry_Date c) (expiry_list w') ->
        In (project c) (latest_snapshot w')).
Proof.
  intros Hc Hne Hspot w' normalised. subst w'.
  destruct (get_nearest_expiries_total normalised) as [l Hl].
  assert (Hopen : filter_atm_range normalised (get_nifty_spot (spot_response env))
                  = normalised).
  { rewrite Hspot. apply filter_atm_range_open. left. apply Qle_refl. }
  assert (Hl' : get_nearest_expiries
                  (filter_atm_range (process_option_chain to_numeric to_datetime raw)
                     (get_nifty_spot (spot_response env))) = Ok l).
  { fold normalised. now rewrite Hopen. }
  rewrite (poll_once_run _ _ _ env w raw l Hc Hne Hl').
  fold normalised. rewrite Hopen.
  destruct (pass_outcome_memory format_number env w l
              (prepare_display (filter (isin l) normalised)))
    as [Hsnap [Hexp [Hsp _]]].
  rewrite Hsnap, Hexp, Hsp, Hspot.
  split; [reflexivity|]. split; [exact Hl|]. split; [reflexivity|].
  intros c Hcin Hsel. apply prepare_display_In. exists c.
  split; [|reflexivity]. apply filter_In. split; [exact Hcin|].
  now apply isin_In.
Qed.

(** X12. A fetched table that is not empty but has no usable row does not
    stop the pass: when no expiry converts, or when the spot is positive
    and no strike lies in the window, the pass selects no expiry, appends
    no signal, and, its writes succeeding, returns and saves an empty
    snapshot over the one on disk. *)
Theorem poll_once_blank_snapshot (env : Env) (w : World) (raw : list RawRow) :
  chain env = Table raw -> raw <> [] ->
  Forall (fun r => to_datetime (raw_Expiry_Date r) = None) raw
  \/ (0 < get_nifty_spot (spot_response env)
      /\ Forall (fun c => ~ in_strike_window (get_nifty_spot (spot_response env)) c)
           (process_option_chain to_numeric to_datetime raw)) ->
  let run := poll_once to_numeric to_datetime format_number env w in
  latest_snapshot (fst run) = []
  /\ expiry_list (fst run) = []
  /\ signals_df (fst run) = signals_df w
  /\ (signals_storage env = Accepts -> snapshot_storage env = Accepts ->
      snd run = Ok [] /\ SNAPSHOT_CSV (fst run) = Some []).
Proof.
  intros Hc Hne Hblank run. subst run.
  assert (Hw : filter_atm_range (process_option_chain to_numeric to_datetime raw)
                 (get_nifty_spot (spot_response env)) = []).
  { destruct Hblank as [H|[Hs H]].
    - rewrite (process_none raw H). apply filter_atm_range_nil.
    - now apply window_none. }
  assert (Hl : get_nearest_expiries
                 (filter_atm_range (process_option_chain to_numeric to_datetime raw)
                    (get_nifty_spot (spot_response env))) = Ok [])
    by now rewrite Hw.
  rewrite (poll_once_run _ _ _ env w raw [] Hc Hne Hl). rewrite Hw.
  change (prepare_display (filter (isin []) [])) with (@nil DisplayRow).
  unfold pass_outcome.
  change (emitted format_number (now_signals env) []) with (@nil Signal).
  rewrite app_nil_r.
  destruct (signals_storage env); [destruct (snapshot_storage env)| |]; simpl;
    repeat split; intros; try discriminate; reflexivity.
Qed.


End DegradedPasses.

Lemma poll_once_without_spot_witness :
  latest_spot
    (fst (poll_once example_to_numeric example_to_datetime example_format
            (mkEnv (Table far_month_raw) None "2025-01-01 09:30:00"
               "2025-01-01 09:30:01" Accepts Accepts) later_world)) = 0
  /\ In (project (row_on feb27 30000))
       (latest_snapshot
          (fst (poll_once example_to_numeric example_to_datetime example_format
                  (mkEnv (Table far_month_raw) None "2025-01-01 09:30:00"
                     "2025-01-01 09:30:01" Accepts Accepts) later_world))).
Proof.
  destruct (poll_once_without_spot example_to_numeric example_to_datetime
              example_format
              (mkEnv (Table far_month_raw) None "2025-01-01 09:30:00"
                 "2025-01-01 09:30:01" Accepts Accepts) later_world far_month_raw)
    as [Hspot [_ [Hsnap _]]].
  - reflexivity.
  - discriminate.
  - reflexivity.
  - split; [exact Hspot|]. rewrite Hsnap. vm_compute. auto.
Defined.

Lemma poll_once_blank_snapshot_witness :
  snd (poll_once example_to_numeric example_to_datetime example_format
         (mkEnv (Table [raw_row "soon" 24300 (-600000)]) (Some 24310)
            "2025-01-01 09:30:00" "2025-01-01 09:30:01" Accepts Accepts) later_world)
  = Ok []
  /\ SNAPSHOT_CSV
       (fst (poll_once example_to_numeric example_to_datetime example_format
               (mkEnv (Table [raw_row "soon" 24300 (-600000)]) (Some 24310)
                  "2025-01-01 09:30:00" "2025-01-01 09:30:01" Accepts Accepts)
               later_world))
     = Some [].
Proof.
  apply (poll_once_blank_snapshot example_to_numeric example_to_datetime
           example_format
           (mkEnv (Table [raw_row "soon" 24300 (-600000)]) (Some 24310)
              "2025-01-01 09:30:00" "2025-01-01 09:30:01" Accepts Accepts)
           later_world [raw_row "soon" 24300 (-600000)]).
  - reflexivity.
  - discriminate.
  - left. repeat constructor.
  - reflexivity.
  - reflexivity.
Defined.

(** ** The signal log across passes *)

Lemma emitted_length (format_number : Q -> string) (now : string) (df : list DisplayRow) :
  (List.length (emitted format_number now df) <= 2)%nat.
Proof.
  unfold emitted. rewrite length_app.
  destruct (call_drop df); destruct (put_drop df); simpl; lia.
Qed.

Lemma emitted_labels (format_number : Q -> string) (now now' : string)
  (df : list DisplayRow) :
  map sig_Signal (emitted format_number now' df)
  = map sig_Signal (emitted format_number now df)
  /\ map sig_Strike (emitted format_number now' df)
     = map sig_Strike (emitted format_number now df).
Proof.
  unfold emitted. destruct (call_drop df); destruct (put_drop df); split; reflexivity.
Qed.

Lemma paired_app (a b : list DiskWrite) : paired a -> paired b -> paired (a ++ b).
Proof.
  intros Ha Hb. induction Ha; simpl; [exact Hb | |]; now constructor.
Qed.




Section LogFacts.

Variable to_numeric : Cell -> option Q.
Variable to_datetime : Cell -> option Timestamp.
Variable format_number : Q -> string.

Lemma poll_once_log (env : Env) (w : World) :
  exists new,
    signals_df (fst (poll_once to_numeric to_datetime format_number env w))
    = signals_df w ++ new
    /\ (List.length new <= 2)%nat.
Proof.
  destruct (poll_once_cases to_numeric to_datetime format_number env w)
    as [[e [_ E]]|[raw [l [_ [_ [_ E]]]]]]; rewrite E.
  - exists []. simpl. rewrite app_nil_r. split; [reflexivity | lia].
  - eexists. split; [apply pass_outcome_memory | apply emitted_length].
Qed.


Lemma poll_once_journal (env : Env) (w : World) :
  exists added,
    journal (fst (poll_once to_numeric to_datetime format_number env w))
    = journal w ++ added
    /\ paired added.
Proof.
  destruct (poll_once_cases to_numeric to_datetime format_number env w)
    as [[e [_ E]]|[raw [l [_ [_ [_ E]]]]]]; rewrite E.
  - exists []. simpl. rewrite app_nil_r. split; [reflexivity | constructor].
  - unfold pass_outcome.
    destruct (signals_storage env) as [|es|es ks];
      [destruct (snapshot_storage env) as [|ed|ed kd]| |]; simpl.
    + eexists. rewrite <- app_assoc. split; [reflexivity|].
      simpl. apply paired_both, paired_nil.
    + eexists. split; [reflexivity | apply paired_log, paired_nil].
    + eexists. split; [reflexivity | apply paired_log, paired_nil].
    + exists []. rewrite app_nil_r. split; [reflexivity | constructor].
    + exists []. rewrite app_nil_r. split; [reflexivity | constructor].
Qed.

(** X14. Signals are not deduplicated from one pass to the next: a second
    pass over the same fetched chain and spot appends signals with the same
    labels and strikes as the first, after them. *)
Theorem poll_once_repeats_signals (env1 env2 : Env) (w : World) :
  chain env1 = chain env2 -> spot_response env1 = spot_response env2 ->
  let w1 := fst (poll_once to_numeric to_datetime format_number env1 w) in
  let w2 := fst (poll_once to_numeric to_datetime format_number env2 w1) in
  exists new1 new2,
    signals_df w1 = signals_df w ++ new1
    /\ signals_df w2 = signals_df w ++ new1 ++ new2
    /\ map sig_Signal new2 = map sig_Signal new1
    /\ map sig_Strike new2 = map sig_Strike new1.
Proof.
  intros Hc Hs w1 w2. subst w2 w1.
  destruct (fetched_or_not env1) as [[e He]|[Hn|[raw [Hc1 Hne]]]].
  - assert (He2 : chain env2 = FetchRaises e) by now rewrite <- Hc.
    rewrite (fetch_raises_run _ _ _ env1 w e He). simpl.
    rewrite (fetch_raises_run _ _ _ env2 w e He2). simpl.
    exists [], []. rewrite !app_nil_r. auto.
  - assert (Hn2 : nothing_fetched env2).
    { unfold nothing_fetched in *. now rewrite <- Hc. }
    rewrite (nothing_fetched_run _ _ _ env1 w Hn). simpl.
    rewrite (nothing_fetched_run _ _ _ env2 w Hn2). simpl.
    exists [], []. rewrite !app_nil_r. auto.
  - destruct (get_nearest_expiries_total
                (filter_atm_range (process_option_chain to_numeric to_datetime raw)
                   (get_nifty_spot (spot_response env1)))) as [l Hl].
    assert (Hc2 : chain env2 = Table raw) by now rewrite <- Hc.
    assert (Hl2 : get_nearest_expiries
                    (filter_atm_range
                       (process_option_chain to_numeric to_datetime raw)
                       (get_nifty_spot (spot_response env2))) = Ok l)
      by now rewrite <- Hs.
    rewrite (poll_once_run _ _ _ env1 w raw l Hc1 Hne Hl).
    match goal with
    | |- context [poll_once _ _ _ env2 ?w1] =>
        rewrite (poll_once_run _ _ _ env2 w1 raw l Hc2 Hne Hl2)
    end.
    rewrite <- Hs.
    set (df := prepare_display (filter (isin l) _)).
    destruct (pass_outcome_memory format_number env1 w l df) as [_ [_ [_ H1]]].
    destruct (pass_outcome_memory format_number env2
                (fst (pass_outcome format_number env1 w l df)) l df)
      as [_ [_ [_ H2]]].
    exists (emitted format_number (now_signals env1) df),
           (emitted format_number (now_signals env2) df).
    destruct (emitted_labels format_number (now_signals env1) (now_signals env2) df)
      as [Hlab Hstr].
    rewrite H2, H1, <- app_assoc. auto.
Qed.

(** X15. Signals that a pass which raised left in memory are not lost to
    the file. After a pass that raised, for whatever reason, the log in
    memory still begins with the log as it was, and when that pass had
    fetched a table it ends with the signals of the snapshot the pass left.
    After a later pass that returned [df], the log file holds the whole
    log as the failed pass left it, followed by the signals detected in
    [df]. *)
Theorem unsaved_signals_reach_file (env1 env2 : Env) (w w1 w2 : World)
  (e : exn) (df : list DisplayRow) :
  poll_once to_numeric to_datetime format_number env1 w = (w1, Raise e) ->
  poll_once to_numeric to_datetime format_number env2 w1 = (w2, Ok df) ->
  extends (signals_df w) (signals_df w1)
  /\ (forall raw1, chain env1 = Table raw1 -> raw1 <> [] ->
      signals_df w1
      = signals_df w
        ++ emitted format_number (now_signals env1) (latest_snapshot w1))
  /\ SIGNALS_CSV w2
     = Some (signals_df w1 ++ emitted format_number (now_signals env2) df).
Proof.
  intros H1 H2. split; [|split].
  - destruct (poll_once_log env1 w) as [new [Hnew _]].
    rewrite H1 in Hnew. simpl in Hnew. now exists new.
  - intros raw1 Hc Hne.
    destruct (get_nearest_expiries_total
                (filter_atm_range (process_option_chain to_numeric to_datetime raw1)
                   (get_nifty_spot (spot_response env1)))) as [l Hl].
    rewrite (poll_once_run _ _ _ env1 w raw1 l Hc Hne Hl) in H1.
    match type of H1 with
    | pass_outcome _ _ _ _ ?d = _ =>
        destruct (pass_outcome_memory format_number env1 w l d)
          as [Hsnap [_ [_ Hlog]]]
    end.
    rewrite H1 in Hsnap, Hlog. simpl in Hsnap, Hlog.
    rewrite Hsnap. exact Hlog.
  - destruct (poll_once_cases to_numeric to_datetime format_number env2 w1)
      as [[e2 [_ E]]|[raw [l [_ [_ [_ E]]]]]]; rewrite E in H2; [discriminate|].
    unfold pass_outcome in H2.
    destruct (signals_storage env2) as [|es|es ks];
      [destruct (snapshot_storage env2) as [|ed|ed kd]| |];
      inversion H2; subst; reflexivity.
Qed.

(** ** The worker loop *)

Lemma worker_turn_fst (w : World) (env : Env) :
  worker_turn to_numeric to_datetime format_number w env
  = fst (poll_once to_numeric to_datetime format_number env w).
Proof.
  unfold worker_turn.
  destruct (poll_once to_numeric to_datetime format_number env w) as [w' [df|e]];
    reflexivity.
Qed.

(** X16. A turn of the worker whose fetch brings nothing back changes
    nothing: the loop goes on, and the state after any run of turns is the
    state after the same turns with that one left out. *)
Theorem worker_background_skips (before after : list Env) (env : Env) (w : World) :
  nothing_fetched env ->
  worker_background to_numeric to_datetime format_number (before ++ env :: after) w
  = worker_background to_numeric to_datetime format_number (before ++ after) w.
Proof.
  intros Hn. unfold worker_background. rewrite !fold_left_app. simpl.
  rewrite worker_turn_fst, (nothing_fetched_run _ _ _ env _ Hn). reflexivity.
Qed.




(** X18. Over any number of turns of the worker the snapshot file is never
    written on its own: the writes of the run are log writes, each followed
    by at most one snapshot write. *)
Theorem worker_background_journal (ticks : list Env) (w : World) :
  exists added,
    journal (worker_background to_numeric to_datetime format_number ticks w)
    = journal w ++ added
    /\ paired added.
Proof.
  unfold worker_background. revert w.
  induction ticks as [|env ticks IH]; intros w; simpl.
  - exists []. rewrite app_nil_r. split; [reflexivity | constructor].
  - rewrite worker_turn_fst.
    destruct (IH (fst (poll_once to_numeric to_datetime format_number env w)))
      as [added [Hadded Hp]].
    destruct (poll_once_journal env w) as [added0 [Hadded0 Hp0]].
    exists (added0 ++ added). rewrite Hadded, Hadded0, <- app_assoc.
    split; [reflexivity | now apply paired_app].
Qed.

Lemma emitted_from (now : string) (df : list DisplayRow) (s : Signal) :
  In s (emitted format_number now df) ->
  exists r,
    In r df
    /\ sig_Timestamp s = now
    /\ sig_Strike s = Strike r + 200
    /\ ((breaches (CE_dOI r)
         /\ sig_Signal s = String.append "BUY CE " (format_number (Strike r + 200)))
        \/ (breaches (PE_dOI r)
            /\ sig_Signal s = String.append "BUY PE " (format_number (Strike r + 200)))).
Proof.
  unfold emitted. intros H. apply in_app_or in H. destruct H as [H|H].
  - destruct (call_drop df) as [|r rest] eqn:E; [contradiction|].
    destruct H as [<-|[]].
    assert (Hr : In r (call_drop df)) by (rewrite E; now left).
    apply filter_In in Hr. destruct Hr as [Hin Hb]. apply breach_test in Hb.
    exists r. repeat split; auto.
  - destruct (put_drop df) as [|r rest] eqn:E; [contradiction|].
    destruct H as [<-|[]].
    assert (Hr : In r (put_drop df)) by (rewrite E; now left).
    apply filter_In in Hr. destruct Hr as [Hin Hb]. apply breach_test in Hb.
    exists r. repeat split; auto.
Qed.

(** X19. Every signal a pass appends comes from a row of the snapshot the
    pass leaves in memory: it carries the time read in the pass, its
    strike is that row's strike plus 200, and the row breaches the
    threshold on the side the label names. Rows outside the window or of an
    unselected expiry give no signal. *)
Theorem poll_once_signals_from_snapshot (env : Env) (w : World) :
  let w' := fst (poll_once to_numeric to_datetime format_number env w) in
  exists new,
    signals_df w' = signals_df w ++ new
    /\ forall s, In s new ->
         exists r,
           In r (latest_snapshot w')
           /\ sig_Timestamp s = now_signals env
           /\ sig_Strike s = Strike r + 200
           /\ ((breaches (CE_dOI r)
                /\ sig_Signal s
                   = String.append "BUY CE " (format_number (Strike r + 200)))
               \/ (breaches (PE_dOI r)
                   /\ sig_Signal s
                      = String.append "BUY PE " (format_number (Strike r + 200)))).
Proof.
  cbv zeta.
  destruct (poll_once_cases to_numeric to_datetime format_number env w)
    as [[e [_ E]]|[raw [l [_ [_ [_ E]]]]]]; rewrite E.
  - exists []. simpl. rewrite app_nil_r. split; [reflexivity | intros s []].
  - match goal with
    | |- context [pass_outcome _ _ _ _ ?d] => set (df := d)
    end.
    destruct (pass_outcome_memory format_number env w l df) as [Hsnap [_ [_ Hlog]]].
    exists (emitted format_number (now_signals env) df).
    split; [exact Hlog|]. rewrite Hsnap. apply emitted_from.
Qed.


End LogFacts.

(** A log write cut short takes rows out of the file: after a turn that
    saved a signal, a turn whose log write raises before any row reached
    the file leaves the file empty, with both signals in memory. *)
Example torn_log_write_empties_file :
  let w1 := worker_background example_to_numeric example_to_datetime
              example_format [saved_breach_env] later_world in
  let w2 := worker_background example_to_numeric example_to_datetime
              example_format [saved_breach_env; torn_log_env] later_world in
  List.length (file_rows (SIGNALS_CSV w1)) = 1%nat
  /\ SIGNALS_CSV w2 = Some []
  /\ List.length (signals_df w2) = 2%nat.
Proof. vm_compute. repeat split. Qed.

Lemma poll_once_repeats_signals_witness :
  exists new1 new2,
    signals_df
      (fst (poll_once example_to_numeric example_to_datetime example_format
              saved_breach_env
              (fst (poll_once example_to_numeric example_to_datetime example_format
                      saved_breach_env later_world))))
    = signals_df later_world ++ new1 ++ new2
    /\ map sig_Signal new2 = map sig_Signal new1.
Proof.
  destruct (poll_once_repeats_signals example_to_numeric example_to_datetime
              example_format saved_breach_env saved_breach_env later_world
              eq_refl eq_refl)
    as [new1 [new2 [_ [H2 [H3 _]]]]].
  exists new1, new2. split; [exact H2 | exact H3].
Defined.

Lemma unsaved_signals_reach_file_witness :
  (SIGNALS_CSV after_torn_log = Some []
   /\ List.length (signals_df after_torn_log) = 1%nat)
  /\ SIGNALS_CSV after_recovery
     = Some (signals_df after_torn_log
             ++ emitted example_format (now_signals saved_breach_env)
                  (latest_snapshot after_recovery))
  /\ List.length (file_rows (SIGNALS_CSV after_recovery)) = 2%nat.
Proof.
  split; [split; vm_compute; reflexivity|]. split.
  - apply (unsaved_signals_reach_file example_to_numeric example_to_datetime
             example_format torn_log_env saved_breach_env later_world
             after_torn_log after_recovery OSError
             (latest_snapshot after_recovery)).
    + vm_compute. reflexivity.
    + vm_compute. reflexivity.
  - vm_compute. reflexivity.
Defined.

Lemma worker_background_skips_witness :
  worker_background example_to_numeric example_to_datetime example_format
    ([saved_breach_env] ++ no_table_env :: [far_month_env]) later_world
  = worker_background example_to_numeric example_to_datetime example_format
      ([saved_breach_env] ++ [far_month_env]) later_world.
Proof.
  apply worker_background_skips. left. reflexivity.
Defined.
